(** * maxent-srl: the FrameNet annotation module [annotation.py]

    A shallow embedding of [parse_fulltext], [align_annotation_with_sentence]
    and [distribute_annotations], and the properties of the offset aligner,
    the corpus parser and the distributor that are established about them.

    Conventions.  Python exceptions are values of [exn]; a computation that
    may raise returns [Res A].  Code that also writes to [sys.stderr] or to
    the file system threads that state explicitly, [M St A].  Python integers
    are unbounded, so offsets are [Z]; indices into strings are [nat]. *)

From Stdlib Require Import ZArith Lia Sorted Ascii.
From Stdlib Require String.
From stdpp Require Import base option list gmap strings.

Local Open Scope Z_scope.

(** ** Exceptions and the two monads *)

Inductive exn : Type :=
  | UnboundLocalError (var : string)
  | KeyError (key : string)
  | IndexError
  | AttributeError
  | ValueError (literal : string)
  | CodecError (e : string).

Inductive Res (A : Type) : Type :=
  | Ok (a : A)
  | Err (e : exn).
Arguments Ok {A} a.
Arguments Err {A} e.

#[global] Instance Res_ret : MRet Res := @Ok.
#[global] Instance Res_bind : MBind Res := fun A B f m =>
  match m with
  | Ok a => f a
  | Err e => Err e
  end.

(** State (the text written so far, the files on disk) threaded through a
    computation that may raise; the state reached when the exception is
    raised is kept. *)
Definition M (St A : Type) : Type := St -> St * Res A.

#[global] Instance M_ret {St} : MRet (M St) := fun A a s => (s, Ok a).
#[global] Instance M_bind {St} : MBind (M St) := fun A B f m s =>
  match m s with
  | (s', Ok a) => f a s'
  | (s', Err e) => (s', Err e)
  end.

Definition lift {St A} (r : Res A) : M St A := fun s => (s, r).

(** Unfolding the binds of either monad in a proof. *)
Ltac unfold_M := unfold mbind, M_bind, mret, M_ret, lift in *.
Ltac unfold_Res := unfold mbind, Res_bind, mret, Res_ret in *.

(** ** Data model (lines 11-13) *)

Record Target : Type := mkTarget { t_start : Z; t_end : Z }.

Record FrameElement : Type :=
  mkFrameElement { fe_start : Z; fe_end : Z; fe_name : string }.

Record Annotation : Type := mkAnnotation {
  ann_id : string;
  ann_sent_id : string;
  ann_frame_name : string;
  ann_target : Target;
  ann_FE : list FrameElement
}.

(** ** The offset aligner (lines 116-160) *)

Module Aligner.

(** [sent[i]] for an index the loop guard keeps in range. *)
Definition char_at (s : string) (i : nat) : option ascii := String.get i s.

(** The variables of the [while] loop of lines 135-142. *)
Record scan_state : Type := mkScan {
  sc_i : nat;
  sc_j : nat;
  sc_gaps : list nat
}.

Definition scan_init : scan_state := mkScan 0 0 [].

(** [i < len(sent) and j < len(new_sent)] *)
Definition scan_cond (sent new_sent : string) (st : scan_state) : bool :=
  (sc_i st <? String.length sent)%nat && (sc_j st <? String.length new_sent)%nat.

(** One iteration.  Under the guard both characters exist, so comparing the
    two lookups compares the characters. *)
Definition scan_body (sent new_sent : string) (st : scan_state) : scan_state :=
  if bool_decide (char_at sent (sc_i st) ≠ char_at new_sent (sc_j st))
  then mkScan (sc_i st) (S (sc_j st)) (sc_gaps st ++ [sc_i st])
  else mkScan (S (sc_i st)) (S (sc_j st)) (sc_gaps st).

(** The loop, unrolled [fuel] times.  [j] grows in every iteration, so
    [len(new_sent)] iterations are enough ([scan_loop_exits] below). *)
Fixpoint scan_loop (sent new_sent : string) (fuel : nat) (st : scan_state)
  : scan_state :=
  match fuel with
  | O => st
  | S fuel' =>
      if scan_cond sent new_sent st
      then scan_loop sent new_sent fuel' (scan_body sent new_sent st)
      else st
  end.

Definition gap_scan (sent new_sent : string) : list nat :=
  sc_gaps (scan_loop sent new_sent (String.length new_sent) scan_init).

(** The [for] loop of [correct_pos] (lines 147-149).  [idx] is the value
    [xrange] hands out next and [i] the local variable of [correct_pos]:
    unbound ([None]) until the first iteration assigns it.  [inl r] is the
    early [return pos + i]; [inr i] is the loop running off its end. *)
Fixpoint correct_pos_for (pos : Z) (gaps : list nat) (idx : nat) (i : option nat)
  : Z + option nat :=
  match gaps with
  | [] => inr i
  | g :: gaps' =>
      if pos <? Z.of_nat g then inl (pos + Z.of_nat idx)
      else correct_pos_for pos gaps' (S idx) (Some idx)
  end.

Definition correct_pos (gaps : list nat) (pos : Z) : Res Z :=
  match correct_pos_for pos gaps 0 None with
  | inl r => Ok r
  | inr (Some i) => Ok (pos + Z.of_nat i + 1)
  | inr None => Err (UnboundLocalError "i")
  end.

(** Lines 155-156. *)
Definition align_fe (gaps : list nat) (fe : FrameElement) : Res FrameElement :=
  s ← correct_pos gaps (fe_start fe);
  e ← correct_pos gaps (fe_end fe);
  mret (mkFrameElement s e (fe_name fe)).

(** Lines 153-158: the body of [for ann in annotations]. *)
Definition align_ann (gaps : list nat) (ann : Annotation) : Res Annotation :=
  s ← correct_pos gaps (t_start (ann_target ann));
  e ← correct_pos gaps (t_end (ann_target ann));
  fes ← mapM (align_fe gaps) (ann_FE ann);
  mret (mkAnnotation (ann_id ann) (ann_sent_id ann) (ann_frame_name ann)
          (mkTarget s e) fes).

(** Lines 134-160: everything below the fast path. *)
Definition align_general (sent new_sent : string) (annotations : list Annotation)
  : Res (list Annotation) :=
  let gaps := gap_scan sent new_sent in
  mapM (align_ann gaps) annotations.

Definition align_annotation_with_sentence
  (sent new_sent : string) (annotations : list Annotation)
  : Res (list Annotation) :=
  if String.eqb sent new_sent then Ok annotations
  else align_general sent new_sent annotations.

End Aligner.

(** ** Documents, as [lxml] presents them after the namespaces are removed *)

#[warnings="-register-all"]
Inductive element : Type :=
  | Element (tag : string) (attrib : gmap string string)
            (text : option string) (children : list element).

Definition tag (e : element) : string :=
  match e with Element t _ _ _ => t end.
Definition attrib (e : element) : gmap string string :=
  match e with Element _ a _ _ => a end.
Definition text (e : element) : option string :=
  match e with Element _ _ t _ => t end.
Definition children (e : element) : list element :=
  match e with Element _ _ _ cs => cs end.

(** The same element with other children. *)
Definition with_children (e : element) (cs : list element) : element :=
  Element (tag e) (attrib e) (text e) cs.

(** [d[k]] on a dictionary and [l[0]] on a list. *)
Definition getitem (d : gmap string string) (k : string) : Res string :=
  match d !! k with
  | Some v => Ok v
  | None => Err (KeyError k)
  end.

Definition first {A} (l : list A) : Res A :=
  match l with
  | x :: _ => Ok x
  | [] => Err IndexError
  end.

(** [int(s)] on a string: blanks around an optionally signed run of decimal
    digits, [ValueError] otherwise. *)
Definition is_space (c : ascii) : bool :=
  let n := nat_of_ascii c in
  ((9 <=? n) && (n <=? 13) || (n =? 32))%nat.

Definition digit_of (c : ascii) : option Z :=
  let n := Z.of_nat (nat_of_ascii c) in
  if (48 <=? n) && (n <=? 57) then Some (n - 48) else None.

Fixpoint lstrip (l : list ascii) : list ascii :=
  match l with
  | c :: l' => if is_space c then lstrip l' else l
  | [] => []
  end.

Definition strip (l : list ascii) : list ascii :=
  rev (lstrip (rev (lstrip l))).

Fixpoint digits (acc : Z) (l : list ascii) : option Z :=
  match l with
  | [] => Some acc
  | c :: l' =>
      match digit_of c with
      | Some d => digits (10 * acc + d) l'
      | None => None
      end
  end.

Definition py_int (s : string) : Res Z :=
  let body := strip (String.list_ascii_of_string s) in
  let '(sign, ds) :=
    match body with
    | "-"%char :: ds => (-1, ds)
    | "+"%char :: ds => (1, ds)
    | _ => (1, body)
    end in
  match ds, digits 0 ds with
  | _ :: _, Some n => Ok (sign * n)
  | _, _ => Err (ValueError s)
  end.

(** ** The corpus parser (lines 47-114) *)

Module Parser.

(** What the two [sys.stderr.write] calls say. *)
Inductive diagnostic : Type :=
  | NoFrameElement (frame_name sent_str : string)
  | NoResult (path : string).

Definition stderr_write (d : diagnostic) : M (list diagnostic) unit :=
  fun err => (err ++ [d], Ok tt).

(** The XPath expressions of the parser, each evaluated on one element:
    children selected by name and attribute tests, in document order. *)
Definition xpath_sentence (tree : element) : list element :=
  filter (fun c => tag c = "sentence") (children tree).

Definition xpath_text (sent : element) : list element :=
  filter (fun c => tag c = "text") (children sent).

(** [annotationSet[@status="MANUAL"]] *)
Definition xpath_manual (sent : element) : list element :=
  filter (fun c => tag c = "annotationSet" ∧ attrib c !! "status" = Some "MANUAL")
    (children sent).

Definition layers (name : string) (a : element) : list element :=
  filter (fun c => tag c = "layer" ∧ attrib c !! "name" = Some name) (children a).

(** [layer[@name="Target"]/label] *)
Definition xpath_target_label (a : element) : list element :=
  layer ← layers "Target" a;
  filter (fun c => tag c = "label") (children layer).

(** [layer[@name="FE"]/label], before the [not(@itype)] test. *)
Definition fe_layer_labels (a : element) : list element :=
  layer ← layers "FE" a;
  filter (fun c => tag c = "label") (children layer).

(** [layer[@name="FE"]/label[not(@itype)]] *)
Definition xpath_FE_label (a : element) : list element :=
  layer ← layers "FE" a;
  filter (fun c => tag c = "label" ∧ attrib c !! "itype" = None) (children layer).

(** Lines 93-96: the body of the loop over the FE labels; [None] when the
    label has no [start] and nothing is appended. *)
Definition FE_body (label : element) : Res (option FrameElement) :=
  if bool_decide (is_Some (attrib label !! "start")) then
    sv ← getitem (attrib label) "start";
    s ← py_int sv;
    ev ← getitem (attrib label) "end";
    e ← py_int ev;
    n ← getitem (attrib label) "name";
    mret (Some (mkFrameElement s e n))
  else mret None.

(** Lines 91-96, [FE] being the list built so far. *)
Fixpoint FE_loop (labels : list element) (FE : list FrameElement)
  : Res (list FrameElement) :=
  match labels with
  | [] => mret FE
  | label :: labels' =>
      r ← FE_body label;
      FE_loop labels' (match r with Some fe => FE ++ [fe] | None => FE end)
  end.

Section WithCodec.

(** [.text.decode('utf8')]: the codec call is the library's; what it returns
    or raises on a given text is not fixed here. *)
Variable decode_utf8 : string -> Res string.

(** Lines 81-107: the body of the loop over the manual annotation sets;
    [None] is the [continue] of line 86. *)
Definition annotation_body (sent_id sent_str : string) (a : element)
  : M (list diagnostic) (option Annotation) :=
  ann_id ← lift (getitem (attrib a) "ID");
  match xpath_target_label a with
  | [target_node] =>
      sv ← lift (getitem (attrib target_node) "start");
      s ← lift (py_int sv);
      ev ← lift (getitem (attrib target_node) "end");
      e ← lift (py_int ev);
      FE ← lift (FE_loop (xpath_FE_label a) []);
      (if bool_decide (length FE = 0%nat) then
         fn ← lift (getitem (attrib a) "frameName");
         stderr_write (NoFrameElement fn sent_str)
       else mret ());;
      fn ← lift (getitem (attrib a) "frameName");
      mret (Some (mkAnnotation ann_id sent_id fn (mkTarget s e) FE))
  | _ => mret None
  end.

Fixpoint annotations_loop (sent_id sent_str : string) (sets : list element)
  (annotations : list Annotation) : M (list diagnostic) (list Annotation) :=
  match sets with
  | [] => mret annotations
  | a :: sets' =>
      r ← annotation_body sent_id sent_str a;
      annotations_loop sent_id sent_str sets'
        (match r with Some ann => annotations ++ [ann] | None => annotations end)
  end.

(** Lines 77-109: the body of the loop over the sentences; [None] when the
    sentence has no annotation and nothing is appended to [result]. *)
Definition sentence_body (sent : element)
  : M (list diagnostic) (option (string * list Annotation)) :=
  sent_id ← lift (getitem (attrib sent) "ID");
  text_node ← lift (first (xpath_text sent));
  raw ← lift (match text text_node with Some t => Ok t | None => Err AttributeError end);
  sent_str ← lift (decode_utf8 raw);
  annotations ← annotations_loop sent_id sent_str (xpath_manual sent) [];
  mret (if bool_decide (0 < length annotations)%nat
        then Some (sent_str, annotations) else None).

Fixpoint sentences_loop (sents : list element)
  (result : list (string * list Annotation))
  : M (list diagnostic) (list (string * list Annotation)) :=
  match sents with
  | [] => mret result
  | sent :: sents' =>
      r ← sentence_body sent;
      sentences_loop sents'
        (match r with Some rec => result ++ [rec] | None => result end)
  end.

(** [parse_fulltext], from the tree that [transform(etree.parse(path))]
    yields: reading the file and removing the namespaces are the library's. *)
Definition parse_fulltext (path : string) (tree : element)
  : M (list diagnostic) (list (string * list Annotation)) :=
  result ← sentences_loop (xpath_sentence tree) [];
  (if bool_decide (length result = 0%nat)
   then stderr_write (NoResult path) else mret ());;
  mret result.

End WithCodec.

End Parser.

(** ** The distributor (lines 162-196) *)

Module Distributor.

(** What a file is given to hold: text, or what [pickle.dump] writes, kept
    as the value it stands for. *)
Inductive file_content : Type :=
  | Text (s : string)
  | Pickled (ann : Annotation).

(** The calls the distributor makes on the world outside: [Path.exists],
    [Path.mkdir], [print], and opening a file for writing, writing one
    value to it and closing it.  Each of them may change the world and
    each may raise; which paths name which files, and when a call fails,
    is the file system's business and is not fixed here. *)
Record file_system : Type := mkFileSystem {
  world : Type;
  path_exists : string -> M world bool;
  mkdir : string -> M world unit;
  print_line : string -> M world unit;
  write_file : string -> file_content -> M world unit
}.

Fixpoint for_each {St A} (f : A -> M St unit) (l : list A) : M St unit :=
  match l with
  | [] => mret ()
  | x :: l' => f x;; for_each f l'
  end.

Section WithFileSystem.

Variable fs : file_system.

(** Lines 187-196: the body of [for sent, anns in annotations]. *)
Definition distribute_body (output_dir : string) (print_sent_path : bool)
  (record : string * list Annotation) : M (world fs) unit :=
  let '(sent, anns) := record in
  a0 ← lift (first anns);
  let sent_id := ann_sent_id a0 in
  let sent_dir := output_dir +:+ "/" +:+ sent_id +:+ ".txt" in
  (if print_sent_path then print_line fs sent_dir else mret ());;
  write_file fs sent_dir (Text sent);;
  for_each (fun ann =>
    write_file fs (output_dir +:+ "/" +:+ ann_id ann +:+ ".ann") (Pickled ann)) anns.

(** Lines 182-196. *)
Definition distribute_annotations (annotations : list (string * list Annotation))
  (output_dir : string) (print_sent_path : bool) : M (world fs) unit :=
  there ← path_exists fs output_dir;
  (if there : bool then mret () else mkdir fs output_dir);;
  for_each (distribute_body output_dir print_sent_path) annotations.

End WithFileSystem.

End Distributor.

Import Aligner.

(** ** Notions the statements below are phrased in *)

(** The characters of a string, in order. *)
Definition chars (s : string) : list ascii := String.list_ascii_of_string s.

(** The gap scan read off the two remaining suffixes: [t] of [new_sent] from
    [j] on, [s] of [sent] from [i] on. *)
Fixpoint scan_suffix (t s : list ascii) (i : nat) (gaps : list nat) : list nat :=
  match t with
  | [] => gaps
  | b :: t' =>
      match s with
      | [] => gaps
      | a :: s' =>
          if bool_decide (a ≠ b) then scan_suffix t' s i (gaps ++ [i])
          else scan_suffix t' s' (S i) gaps
      end
  end.

(** The number of gaps met before the first gap greater than [pos]. *)
Fixpoint gaps_up_to (pos : Z) (gaps : list nat) : nat :=
  match gaps with
  | [] => 0
  | g :: gaps' => if pos <? Z.of_nat g then 0 else S (gaps_up_to pos gaps')
  end.

(** [count(gaps <= pos)] and, as the specification words it,
    [count(gaps < pos)]. *)
Definition count_le (pos : Z) (gaps : list nat) : nat :=
  length (filter (fun g => Z.of_nat g <= pos) gaps).

Definition count_lt (pos : Z) (gaps : list nat) : nat :=
  length (filter (fun g => Z.of_nat g < pos) gaps).

(** A pure insertion: every character [c] of the original string together
    with the run of characters inserted just before it, and the characters
    inserted after the last one. *)
Definition insertion : Type := list (list ascii * ascii).

Definition original (segs : insertion) : string :=
  String.string_of_list_ascii (segs.*2).

Definition retokenized_chars (segs : insertion) : list ascii :=
  p ← segs; p.1 ++ [p.2].

Definition retokenized (segs : insertion) (trailing : list ascii) : string :=
  String.string_of_list_ascii (retokenized_chars segs ++ trailing).

(** Where the character at offset [pos] of [original segs] stands in
    [retokenized segs trailing]. *)
Fixpoint new_offset (segs : insertion) (pos : nat) : nat :=
  match segs with
  | [] => pos
  | (run, _) :: segs' =>
      match pos with
      | O => length run
      | S pos' => length run + 1 + new_offset segs' pos'
      end
  end.

(** The original index of every inserted character that has an original
    character after it, counted from [i]. *)
Fixpoint gaps_of (segs : insertion) (i : nat) : list nat :=
  match segs with
  | [] => []
  | (run, _) :: segs' => replicate (length run) i ++ gaps_of segs' (S i)
  end.

(** No inserted character equals the original character it is put before. *)
Definition distinguishable (segs : insertion) : Prop :=
  Forall (fun p => Forall (fun c => c ≠ p.2) p.1) segs.

(** What alignment may change: [ann'] is [ann] with every offset sent
    through [f], and nothing else touched. *)
Definition fe_aligned (f : Z -> Res Z) (fe fe' : FrameElement) : Prop :=
  fe_name fe' = fe_name fe
  /\ f (fe_start fe) = Ok (fe_start fe')
  /\ f (fe_end fe) = Ok (fe_end fe').

Definition ann_aligned (f : Z -> Res Z) (ann ann' : Annotation) : Prop :=
  ann_id ann' = ann_id ann
  /\ ann_sent_id ann' = ann_sent_id ann
  /\ ann_frame_name ann' = ann_frame_name ann
  /\ f (t_start (ann_target ann)) = Ok (t_start (ann_target ann'))
  /\ f (t_end (ann_target ann)) = Ok (t_end (ann_target ann'))
  /\ Forall2 (fe_aligned f) (ann_FE ann) (ann_FE ann').

(** The map the aligner sends offsets through: the identity on the fast
    path, [correct_pos] over the scanned gaps otherwise. *)
Definition offset_map (sent new_sent : string) : Z -> Res Z :=
  if String.eqb sent new_sent then Ok
  else correct_pos (gap_scan sent new_sent).

(** The data of the doctest of [align_annotation_with_sentence]. *)
Definition doc_sent : string := "he says: I say: I love you".
Definition doc_new_sent : string := "he says : I say : I love you".
Definition doc_ann1 : Annotation :=
  mkAnnotation "1" "1" "he" (mkTarget 0 1)
    [mkFrameElement 3 6 "says"; mkFrameElement 7 7 ":"].
Definition doc_ann1_aligned : Annotation :=
  mkAnnotation "1" "1" "he" (mkTarget 0 1)
    [mkFrameElement 3 6 "says"; mkFrameElement 8 8 ":"].
Definition doc_ann2 : Annotation :=
  mkAnnotation "2" "2" "I" (mkTarget 9 9)
    [mkFrameElement 14 14 ":"; mkFrameElement 16 16 "I";
     mkFrameElement 11 16 "say: I"].
Definition doc_ann2_aligned : Annotation :=
  mkAnnotation "2" "2" "I" (mkTarget 10 10)
    [mkFrameElement 16 16 ":"; mkFrameElement 18 18 "I";
     mkFrameElement 12 18 "say: I"].

(** Insertions used as instances below: one blank put before each colon of
    ["a:b:"], and an ["a"] put before the ["a"] of ["ab"]. *)
Definition colon_insertion : insertion :=
  [([], "a"); ([" "], ":"); ([], "b"); ([" "], ":")]%char.
Definition repeated_insertion : insertion :=
  [(["a"], "a"); ([], "b")]%char.

Definition small_ann : Annotation :=
  mkAnnotation "1" "1" "f" (mkTarget 0 1) [].

(** Every offset an annotation carries. *)
Definition offsets_of (ann : Annotation) : list Z :=
  [t_start (ann_target ann); t_end (ann_target ann)]
  ++ (fe ← ann_FE ann; [fe_start fe; fe_end fe]).

(** The specification's wording of the correction: the number of gaps met
    before the first gap [>= pos]. *)
Fixpoint spec_gaps_before_ge (pos : Z) (gaps : list nat) : nat :=
  match gaps with
  | [] => 0
  | g :: gaps' => if pos <=? Z.of_nat g then 0 else S (spec_gaps_before_ge pos gaps')
  end.

Import Parser Distributor.

(** The frame element a label stands for: its [start] and [end] read as
    integers, and its [name]. *)
Definition fe_of_label (label : element) (fe : FrameElement) : Prop :=
  exists sv ev,
    attrib label !! "start" = Some sv /\ py_int sv = Ok (fe_start fe)
    /\ attrib label !! "end" = Some ev /\ py_int ev = Ok (fe_end fe)
    /\ attrib label !! "name" = Some (fe_name fe).

(** A label with an instantiation type, or without [start]: a null
    instantiation. *)
Definition instantiated (label : element) : Prop :=
  attrib label !! "itype" = None /\ is_Some (attrib label !! "start").

(** A small corpus in the shape of the doctest's [annotation_dni.xml]: one
    sentence with an unannotated set, a set with a null-instantiated and a
    span-less FE label, a set whose Target layer is empty, and a set whose
    only FE is null-instantiated. *)
Definition attrs (l : list (string * string)) : gmap string string :=
  list_to_map l.
Definition label (l : list (string * string)) : element :=
  Element "label" (attrs l) None [].
Definition layer (name : string) (labels : list element) : element :=
  Element "layer" (attrs [("name", name)]) None labels.
Definition annotation_set (id status frame : string) (ls : list element)
  : element :=
  Element "annotationSet"
    (attrs [("ID", id); ("status", status); ("frameName", frame)]) None ls.

Definition set_unannotated : element := annotation_set "2018464" "UNANN" "" [].
Definition set_importance : element :=
  annotation_set "2018465" "MANUAL" "Importance"
    [layer "Target" [label [("start", "60"); ("end", "63"); ("name", "Target")]];
     layer "FE" [label [("start", "65"); ("end", "70"); ("name", "Factor")];
                 label [("name", "Undertaking"); ("itype", "DNI");
                        ("start", "1"); ("end", "2")];
                 label [("name", "Interested_party"); ("end", "3")]]].
Definition set_no_target : element :=
  annotation_set "2018467" "MANUAL" "Origin"
    [layer "Target" [];
     layer "FE" [label [("start", "0"); ("end", "3"); ("name", "Entity")]]].
Definition set_rewards : element :=
  annotation_set "2018466" "MANUAL" "Rewards_and_punishments"
    [layer "Target" [label [("start", "154"); ("end", "163"); ("name", "Target")]];
     layer "FE" [label [("name", "Agent"); ("itype", "CNI")]]].
Definition text_node : element := Element "text" ∅ (Some "Some text .") [].
Definition header : element := Element "header" ∅ None [].
Definition sentence_dni : element :=
  Element "sentence" (attrs [("ID", "1278414")]) None
    [text_node; set_unannotated; set_importance; set_no_target; set_rewards].
Definition corpus_dni : element :=
  Element "fullTextAnnotation" ∅ None [header; sentence_dni].

(** The same label as the first FE of [set_importance], its [end] lost. *)
Definition label_no_end : element := label [("start", "65"); ("name", "Factor")].
Definition set_broken : element :=
  annotation_set "2018468" "MANUAL" "Importance"
    [layer "Target" [label [("start", "60"); ("end", "63"); ("name", "Target")]];
     layer "FE" [label [("start", "0"); ("end", "3"); ("name", "Entity")];
                 label_no_end]].
Definition sentence_broken : element :=
  Element "sentence" (attrs [("ID", "1278415")]) None
    [text_node; set_rewards; set_broken].
Definition corpus_broken : element :=
  Element "fullTextAnnotation" ∅ None [header; sentence_dni; sentence_broken].

Definition ann_importance : Annotation :=
  mkAnnotation "2018465" "1278414" "Importance" (mkTarget 60 63)
    [mkFrameElement 65 70 "Factor"].
Definition ann_rewards : Annotation :=
  mkAnnotation "2018466" "1278414" "Rewards_and_punishments"
    (mkTarget 154 163) [].

(** A file system kept in memory, to run the distributor on: the
    directories made, what each path was last given to hold, and the lines
    printed.  In it no call fails and every path string is a file of its
    own; it is one file system among those [distribute_annotations] may
    meet, not an account of the operating system. *)
Record memory : Type := mkMemory {
  dirs : gset string;
  files : gmap string file_content;
  stdout : list string
}.

Definition memory_exists (p : string) : M memory bool :=
  fun w => (w, Ok (bool_decide (p ∈ dirs w) || bool_decide (is_Some (files w !! p)))).

Definition memory_mkdir (p : string) : M memory unit :=
  fun w => (mkMemory ({[ p ]} ∪ dirs w) (files w) (stdout w), Ok ()).

Definition memory_print (s : string) : M memory unit :=
  fun w => (mkMemory (dirs w) (files w) (stdout w ++ [s]), Ok ()).

Definition memory_write (p : string) (c : file_content) : M memory unit :=
  fun w => (mkMemory (dirs w) (<[ p := c ]> (files w)) (stdout w), Ok ()).

Definition memory_fs : file_system :=
  mkFileSystem memory memory_exists memory_mkdir memory_print memory_write.

Definition empty_memory : memory := mkMemory ∅ ∅ [].

(** A file system none of whose calls raises. *)
Definition reliable (fs : file_system) : Prop :=
  (forall p w, exists there, (path_exists fs p w).2 = Ok there)
  /\ (forall p w, (mkdir fs p w).2 = Ok ())
  /\ (forall s w, (print_line fs s w).2 = Ok ())
  /\ (forall p c w, (write_file fs p c w).2 = Ok ()).

(** The files [distribute_annotations] names. *)
Definition sentence_file (output_dir : string) (a0 : Annotation) : string :=
  output_dir +:+ "/" +:+ ann_sent_id a0 +:+ ".txt".

Definition annotation_file (output_dir : string) (ann : Annotation) : string :=
  output_dir +:+ "/" +:+ ann_id ann +:+ ".ann".

(** The calls on the file system, as values. *)
Inductive action : Type :=
  | Mkdir (p : string)
  | Print (s : string)
  | Write (p : string) (c : file_content).

Definition perform (fs : file_system) (a : action) : M (world fs) unit :=
  match a with
  | Mkdir p => mkdir fs p
  | Print s => print_line fs s
  | Write p c => write_file fs p c
  end.

(** The calls one record stands for, in the order they are made. *)
Definition record_actions (output_dir : string) (print_sent_path : bool)
  (record : string * list Annotation) : list action :=
  match record.2 with
  | [] => []
  | a0 :: _ =>
      (if print_sent_path then [Print (sentence_file output_dir a0)] else [])
      ++ Write (sentence_file output_dir a0) (Text record.1)
         :: ((fun ann => Write (annotation_file output_dir ann) (Pickled ann))
               <$> record.2)
  end.

(** The records before the first one that has no annotation. *)
Fixpoint served (records : list (string * list Annotation))
  : list (string * list Annotation) :=
  match records with
  | [] => []
  | (sent, []) :: _ => []
  | record :: records' => record :: served records'
  end.

(** All the calls of a run that found [there] when it asked whether the
    output directory exists. *)
Definition run_actions (output_dir : string) (print_sent_path : bool)
  (records : list (string * list Annotation)) (there : bool) : list action :=
  (if there then [] else [Mkdir output_dir])
  ++ (served records ≫= record_actions output_dir print_sent_path).

(** How a run over [records] ends once all its calls have returned. *)
Definition outcome (records : list (string * list Annotation)) : Res unit :=
  if bool_decide (length (served records) = length records)
  then Ok () else Err IndexError.

(** The writes among some calls, and writes made one after the other on a
    map from paths to contents, a later one replacing an earlier one. *)
Definition writes_of (l : list action) : list (string * file_content) :=
  a ← l; match a with Write p c => [(p, c)] | _ => [] end.

Definition apply_writes (ws : list (string * file_content))
  (m : gmap string file_content) : gmap string file_content :=
  foldl (fun m w => <[ w.1 := w.2 ]> m) m ws.

(** The paths a run over [records] may write to. *)
Definition named_files (output_dir : string)
  (records : list (string * list Annotation)) : list string :=
  record ← records;
  match record.2 with
  | [] => []
  | a0 :: _ => sentence_file output_dir a0 :: (annotation_file output_dir <$> record.2)
  end.

(** What the results on stored files ask of a file system.  [read p w] is
    what path [p] holds in [w]; [same_file p q] says that [p] and [q] name
    one file.  A write that returns has stored its value; a write does not
    change a file it does not name; the other calls change no file. *)
Record file_system_laws (fs : file_system)
  (read : string -> world fs -> option file_content)
  (same_file : string -> string -> Prop) : Prop := mkLaws {
  same_file_refl : forall p, same_file p p;
  read_after_write : forall p c w,
    (write_file fs p c w).2 = Ok () -> read p (write_file fs p c w).1 = Some c;
  read_other_write : forall p q c w,
    ¬ same_file q p -> read q (write_file fs p c w).1 = read q w;
  read_after_mkdir : forall p q w, read q (mkdir fs p w).1 = read q w;
  read_after_print : forall s q w, read q (print_line fs s w).1 = read q w;
  read_after_exists : forall p q w, read q (path_exists fs p w).1 = read q w
}.

(** The record the parser returns for [corpus_dni], and a memory that holds
    a directory and one file in it already. *)
Definition records_dni : list (string * list Annotation) :=
  [("Some text .", [ann_importance; ann_rewards])].
Definition memory_with_notes : memory :=
  mkMemory {[ "out" ]} {[ "out/notes.txt" := Text "keep" ]} [].

(** The state the [while] loop of the scan ends in. *)
Definition scan_final (sent new_sent : string) : scan_state :=
  scan_loop sent new_sent (String.length new_sent) scan_init.

(** What holds of [i], [j] and [gaps] every time the loop guard is
    evaluated. *)
Definition scan_invariant (sent new_sent : string) (st : scan_state) : Prop :=
  sc_j st = (sc_i st + length (sc_gaps st))%nat
  /\ (sc_i st <= String.length sent)%nat
  /\ (sc_j st <= String.length new_sent)%nat
  /\ Sorted Nat.le (sc_gaps st)
  /\ Forall (fun g => (g <= sc_i st)%nat /\ (g < String.length sent)%nat) (sc_gaps st).

(** A span that was in order is still in order. *)
Definition order_kept (s e s' e' : Z) : Prop := s <= e -> s' <= e'.

Definition spans_kept (ann ann' : Annotation) : Prop :=
  order_kept (t_start (ann_target ann)) (t_end (ann_target ann))
    (t_start (ann_target ann')) (t_end (ann_target ann'))
  /\ t_start (ann_target ann) <= t_start (ann_target ann')
  /\ Forall2 (fun fe fe' =>
       order_kept (fe_start fe) (fe_end fe) (fe_start fe') (fe_end fe')
       /\ fe_start fe <= fe_start fe')
       (ann_FE ann) (ann_FE ann').

(** The diagnostics a parse result accounts for: one for every annotation
    without frame elements, in the order of the result. *)
Definition warnings_of_annotations (sent_str : string) (anns : list Annotation)
  : list diagnostic :=
  (fun ann => NoFrameElement (ann_frame_name ann) sent_str)
    <$> filter (fun ann => ann_FE ann = []) anns.

Definition warnings_of (result : list (string * list Annotation))
  : list diagnostic :=
  record ← result; warnings_of_annotations record.1 record.2.

(** An FE label the loop can read: with a [start], it has integer [start]
    and [end] and a [name]. *)
Definition readable_label (label : element) : Prop :=
  is_Some (attrib label !! "start") ->
  exists sv ev s e n,
    attrib label !! "start" = Some sv /\ py_int sv = Ok s
    /\ attrib label !! "end" = Some ev /\ py_int ev = Ok e
    /\ attrib label !! "name" = Some n.

(** An annotation set the parser can read. *)
Definition readable_set (a : element) : Prop :=
  is_Some (attrib a !! "ID")
  /\ is_Some (attrib a !! "frameName")
  /\ (exists target sv ev s e,
        xpath_target_label a = [target]
        /\ attrib target !! "start" = Some sv /\ py_int sv = Ok s
        /\ attrib target !! "end" = Some ev /\ py_int ev = Ok e)
  /\ Forall readable_label (xpath_FE_label a).

(** Where a record of the result comes from: a sentence with an [ID], whose
    first [text] child decodes to the record's text, all annotations of the
    record carrying that [ID]. *)
Definition record_of (decode_utf8 : string -> Res string) (sent : element)
  (record : string * list Annotation) : Prop :=
  exists sid tnode rest raw,
    attrib sent !! "ID" = Some sid
    /\ xpath_text sent = tnode :: rest
    /\ text tnode = Some raw
    /\ decode_utf8 raw = Ok record.1
    /\ record.2 ≠ []
    /\ Forall (fun ann => ann_sent_id ann = sid) record.2.

(** A sentence the parser can read: it has an [ID] and a [text] child whose
    text decodes, and each of its manual annotation sets is readable or is
    one the parser skips. *)
Definition readable_sentence (decode_utf8 : string -> Res string) (sent : element)
  : Prop :=
  is_Some (attrib sent !! "ID")
  /\ (exists tnode rest raw sent_str,
        xpath_text sent = tnode :: rest /\ text tnode = Some raw
        /\ decode_utf8 raw = Ok sent_str)
  /\ Forall (fun a =>
       readable_set a
       \/ (is_Some (attrib a !! "ID") /\ length (xpath_target_label a) ≠ 1%nat))
       (xpath_manual sent).

(** A corpus whose second sentence has no [ID]. *)
Definition sentence_no_id : element := Element "sentence" ∅ None [text_node].
Definition corpus_no_id : element :=
  Element "fullTextAnnotation" ∅ None [sentence_dni; sentence_no_id].


(** ** The gap scan *)

Section Scan.

Lemma char_at_chars s i : char_at s i = chars s !! i.
Proof.
  unfold char_at, chars. revert i.
  induction s as [|c s IH]; intros [|i]; simpl; auto.
Qed.

Lemma length_chars s : String.length s = length (chars s).
Proof. unfold chars. induction s; simpl; auto. Qed.

Lemma chars_of_list l : chars (String.string_of_list_ascii l) = l.
Proof. apply String.list_ascii_of_string_of_list_ascii. Qed.

Lemma scan_suffix_nil_r t i gaps : scan_suffix t [] i gaps = gaps.
Proof. destruct t; reflexivity. Qed.

Variables sent new_sent : string.

Lemma scan_cond_true st :
  scan_cond sent new_sent st = true ->
  exists a b, chars sent !! sc_i st = Some a /\ chars new_sent !! sc_j st = Some b.
Proof.
  unfold scan_cond. rewrite andb_true_iff, !Nat.ltb_lt, !length_chars.
  intros [Hi Hj].
  destruct (lookup_lt_is_Some_2 _ _ Hi) as [a Ha].
  destruct (lookup_lt_is_Some_2 _ _ Hj) as [b Hb]. eauto.
Qed.

Lemma scan_cond_false st :
  scan_cond sent new_sent st = false ->
  drop (sc_i st) (chars sent) = [] \/ drop (sc_j st) (chars new_sent) = [].
Proof.
  unfold scan_cond. rewrite andb_false_iff, !Nat.ltb_ge, !length_chars.
  intros [H|H]; [left|right]; now apply drop_ge.
Qed.

(** The loop run from any state with enough fuel computes [scan_suffix] of
    what is left of the two strings. *)
Lemma scan_loop_suffix fuel st :
  (length (chars new_sent) - sc_j st <= fuel)%nat ->
  sc_gaps (scan_loop sent new_sent fuel st)
  = scan_suffix (drop (sc_j st) (chars new_sent)) (drop (sc_i st) (chars sent))
      (sc_i st) (sc_gaps st).
Proof.
  revert st. induction fuel as [|fuel IH]; intros st Hfuel; simpl.
  - rewrite drop_ge by lia. reflexivity.
  - destruct (scan_cond sent new_sent st) eqn:Hc.
    + destruct (scan_cond_true _ Hc) as (a & b & Ha & Hb).
      pose proof (lookup_lt_Some _ _ _ Hb) as Hlt.
      rewrite (drop_S _ _ _ Ha), (drop_S _ _ _ Hb). simpl.
      unfold scan_body. rewrite !char_at_chars, Ha, Hb.
      destruct (decide (a = b)) as [->|Hab].
      * rewrite !bool_decide_eq_false_2 by (intros H; now apply H).
        rewrite IH by (simpl; lia). reflexivity.
      * rewrite !bool_decide_eq_true_2 by congruence.
        rewrite IH by (simpl; lia). simpl.
        now rewrite (drop_S _ _ _ Ha).
    + destruct (scan_cond_false _ Hc) as [H|H]; rewrite H.
      * now rewrite scan_suffix_nil_r.
      * reflexivity.
Qed.

(** [len(new_sent)] iterations reach the end of the loop, and more fuel
    changes nothing: the model returns what the [while] loop returns. *)
Lemma scan_loop_exits_from fuel st :
  (length (chars new_sent) - sc_j st <= fuel)%nat ->
  scan_cond sent new_sent (scan_loop sent new_sent fuel st) = false.
Proof.
  revert st. induction fuel as [|fuel IH]; intros st Hfuel; simpl.
  - unfold scan_cond. rewrite andb_false_iff, !Nat.ltb_ge, !length_chars. lia.
  - destruct (scan_cond sent new_sent st) eqn:Hc; [|exact Hc].
    apply IH. unfold scan_cond in Hc.
    rewrite andb_true_iff, !Nat.ltb_lt, !length_chars in Hc.
    unfold scan_body. case_bool_decide; simpl; lia.
Qed.

Lemma scan_loop_exits :
  scan_cond sent new_sent
    (scan_loop sent new_sent (String.length new_sent) scan_init) = false.
Proof. apply scan_loop_exits_from. rewrite length_chars. simpl. lia. Qed.

Lemma scan_loop_stable fuel st :
  scan_cond sent new_sent st = false -> scan_loop sent new_sent fuel st = st.
Proof. intros H. destruct fuel; simpl; [|rewrite H]; reflexivity. Qed.

Lemma scan_loop_more fuel extra st :
  scan_loop sent new_sent (fuel + extra) st
  = scan_loop sent new_sent extra (scan_loop sent new_sent fuel st).
Proof.
  revert st. induction fuel as [|fuel IH]; intros st; simpl; [reflexivity|].
  destruct (scan_cond sent new_sent st) eqn:Hc; [apply IH|].
  now rewrite scan_loop_stable.
Qed.

Lemma scan_loop_fuel_irrelevant extra :
  scan_loop sent new_sent (String.length new_sent + extra) scan_init
  = scan_loop sent new_sent (String.length new_sent) scan_init.
Proof. rewrite scan_loop_more. apply scan_loop_stable, scan_loop_exits. Qed.

Lemma gap_scan_suffix :
  gap_scan sent new_sent = scan_suffix (chars new_sent) (chars sent) 0 [].
Proof.
  unfold gap_scan. rewrite scan_loop_suffix by (rewrite length_chars; lia).
  reflexivity.
Qed.

End Scan.

(** ** The position correction *)

Section CorrectPos.

Implicit Types (pos : Z) (gaps : list nat).

Lemma gaps_up_to_le pos gaps : (gaps_up_to pos gaps <= length gaps)%nat.
Proof. induction gaps as [|g gaps IH]; simpl; [lia|]. destruct (pos <? _); simpl; lia. Qed.

(** What the [for] loop leaves: the early return at the first gap above
    [pos], or the last index handed out. *)
Lemma correct_pos_for_spec pos gaps idx last :
  correct_pos_for pos gaps idx last =
  if (gaps_up_to pos gaps <? length gaps)%nat
  then inl (pos + Z.of_nat (idx + gaps_up_to pos gaps))
  else inr (match gaps with
            | [] => last
            | _ :: _ => Some (idx + length gaps - 1)%nat
            end).
Proof.
  revert idx last. induction gaps as [|g gaps IH]; intros idx last; simpl.
  - reflexivity.
  - destruct (pos <? Z.of_nat g) eqn:Hg.
    + change (0 <? S (length gaps))%nat with true. cbv iota.
      now rewrite Nat.add_0_r.
    + rewrite IH.
      change (S (gaps_up_to pos gaps) <? S (length gaps))%nat
        with (gaps_up_to pos gaps <? length gaps)%nat.
      destruct (gaps_up_to pos gaps <? length gaps)%nat.
      * do 2 f_equal. lia.
      * destruct gaps; simpl; do 2 f_equal; lia.
Qed.

Lemma correct_pos_empty pos : correct_pos [] pos = Err (UnboundLocalError "i").
Proof. reflexivity. Qed.

Lemma correct_pos_nonempty pos gaps :
  gaps ≠ [] -> correct_pos gaps pos = Ok (pos + Z.of_nat (gaps_up_to pos gaps)).
Proof.
  intros Hne. unfold correct_pos. rewrite correct_pos_for_spec.
  pose proof (gaps_up_to_le pos gaps) as Hle.
  destruct (gaps_up_to pos gaps <? length gaps)%nat eqn:Hlt.
  - reflexivity.
  - apply Nat.ltb_ge in Hlt. destruct gaps as [|g gaps]; [done|].
    simpl length in *. f_equal. lia.
Qed.

Lemma correct_pos_total pos gaps :
  gaps ≠ [] -> exists r, correct_pos gaps pos = Ok r.
Proof. intros H. rewrite correct_pos_nonempty by done. eauto. Qed.

Lemma correct_pos_Err pos gaps e :
  correct_pos gaps pos = Err e -> gaps = [] /\ e = UnboundLocalError "i".
Proof.
  destruct gaps as [|g gaps].
  - rewrite correct_pos_empty. intros [= <-]. done.
  - rewrite correct_pos_nonempty by done. discriminate.
Qed.

Lemma gaps_up_to_all pos gaps :
  Forall (fun g => Z.of_nat g <= pos) gaps -> gaps_up_to pos gaps = length gaps.
Proof.
  induction 1 as [|g gaps Hg _ IH]; simpl; [reflexivity|].
  destruct (Z.ltb_spec pos (Z.of_nat g)); [lia|]. now rewrite IH.
Qed.

Lemma count_le_above pos gaps :
  Forall (fun g => pos < Z.of_nat g) gaps -> count_le pos gaps = 0%nat.
Proof.
  unfold count_le. induction 1 as [|g gaps Hg _ IH]; [reflexivity|].
  rewrite filter_cons_False by lia. exact IH.
Qed.

(** On an ascending list the gaps before the first one above [pos] are all
    the gaps at or below [pos]. *)
Lemma gaps_up_to_count_le pos gaps :
  Sorted Nat.le gaps -> gaps_up_to pos gaps = count_le pos gaps.
Proof.
  intros Hs. apply Sorted_StronglySorted in Hs; [|intros x y z; apply Nat.le_trans].
  induction Hs as [|g gaps _ IH Hall]; [reflexivity|]. simpl.
  destruct (Z.ltb_spec pos (Z.of_nat g)) as [Hlt|Hge].
  - symmetry. apply count_le_above. constructor; [lia|].
    eapply Forall_impl; [exact Hall|]. simpl. intros; lia.
  - unfold count_le in *. rewrite filter_cons_True by lia. simpl. now rewrite IH.
Qed.

End CorrectPos.

(** ** Pure insertions *)

Section Insertion.

Implicit Types (segs : insertion) (trailing : list ascii).

Lemma scan_suffix_insertion segs trailing i gaps :
  distinguishable segs ->
  scan_suffix (retokenized_chars segs ++ trailing) (segs.*2) i gaps
  = gaps ++ gaps_of segs i.
Proof.
  unfold retokenized_chars. intros Hd. revert i gaps.
  induction Hd as [|[run c] segs Hrun _ IH]; intros i gaps.
  - simpl. now rewrite scan_suffix_nil_r, app_nil_r.
  - rewrite bind_cons, fmap_cons. simpl in *.
    revert gaps. induction Hrun as [|x run Hx _ IHrun]; intros gaps; simpl.
    + rewrite bool_decide_eq_false_2 by (intros H; now apply H). apply IH.
    + rewrite bool_decide_eq_true_2 by congruence.
      rewrite IHrun. now rewrite <- app_assoc.
Qed.

(** On a pure insertion whose inserted characters can be told from the
    character they precede, the scan records exactly the insertion points,
    once per inserted character; trailing insertions leave no record. *)
Lemma gap_scan_insertion segs trailing :
  distinguishable segs ->
  gap_scan (original segs) (retokenized segs trailing) = gaps_of segs 0.
Proof.
  intros Hd. rewrite gap_scan_suffix. unfold original, retokenized.
  rewrite !chars_of_list. now rewrite scan_suffix_insertion.
Qed.

Lemma gaps_up_to_below pos i segs :
  pos < Z.of_nat i -> gaps_up_to pos (gaps_of segs i) = 0%nat.
Proof.
  revert i. induction segs as [|[run c] segs IH]; intros i Hi; simpl; [reflexivity|].
  destruct run as [|x run]; simpl.
  - apply IH. lia.
  - destruct (Z.ltb_spec pos (Z.of_nat i)); [reflexivity|lia].
Qed.

Lemma gaps_up_to_replicate_app pos n i gaps :
  Z.of_nat i <= pos ->
  gaps_up_to pos (replicate n i ++ gaps) = (n + gaps_up_to pos gaps)%nat.
Proof.
  intros Hi. induction n as [|n IH]; simpl; [reflexivity|].
  destruct (Z.ltb_spec pos (Z.of_nat i)); [lia|]. now rewrite IH.
Qed.

Lemma gaps_up_to_insertion segs i pos :
  (pos < length segs)%nat ->
  (gaps_up_to (Z.of_nat (i + pos)) (gaps_of segs i) + pos)%nat = new_offset segs pos.
Proof.
  revert i pos. induction segs as [|[run c] segs IH]; intros i pos Hpos; simpl in *.
  - lia.
  - rewrite gaps_up_to_replicate_app by lia. destruct pos as [|pos].
    + rewrite gaps_up_to_below by lia. lia.
    + specialize (IH (S i) pos ltac:(lia)).
      replace (i + S pos)%nat with (S i + pos)%nat by lia. lia.
Qed.

(** [new_offset] does point at the same character. *)
Lemma new_offset_char segs trailing pos :
  (pos < length segs)%nat ->
  (retokenized_chars segs ++ trailing) !! new_offset segs pos = segs.*2 !! pos.
Proof.
  unfold retokenized_chars. revert pos.
  induction segs as [|[run c] segs IH]; intros pos Hpos; simpl in *; [lia|].
  rewrite <- !app_assoc. destruct pos as [|pos].
  - rewrite lookup_app_r by lia. now rewrite Nat.sub_diag.
  - rewrite lookup_app_r by lia.
    replace (length run + 1 + new_offset segs pos - length run)%nat
      with (S (new_offset segs pos)) by lia.
    simpl. apply IH. lia.
Qed.

Lemma gaps_of_nonempty segs i :
  Exists (fun p => p.1 ≠ []) segs -> gaps_of segs i ≠ [].
Proof.
  intros He. revert i. induction He as [[run c] segs Hne|[run c] segs _ IH]; intros i; simpl in *.
  - destruct run; [done|]. simpl. discriminate.
  - intros H. apply app_eq_nil in H as [_ H]. exact (IH _ H).
Qed.

Lemma gaps_of_sorted_from segs i :
  Sorted Nat.le (gaps_of segs i) /\ Forall (fun g => (i <= g)%nat) (gaps_of segs i).
Proof.
  revert i. induction segs as [|[run c] segs IH]; intros i; simpl.
  - split; constructor.
  - destruct (IH (S i)) as [Hs Hall].
    assert (Hall' : Forall (fun g => (i <= g)%nat) (gaps_of segs (S i))).
    { eapply Forall_impl; [exact Hall|]. simpl. intros; lia. }
    induction (length run) as [|n [IHs IHa]]; simpl.
    + split; assumption.
    + split; [|constructor; [lia|assumption]].
      constructor; [assumption|].
      destruct (replicate n i ++ gaps_of segs (S i)) as [|g l] eqn:E; constructor.
      inversion IHa; subst. done.
Qed.

Lemma length_retokenized_chars segs :
  length (retokenized_chars segs) = (length segs + length (gaps_of segs 0))%nat.
Proof.
  unfold retokenized_chars. generalize 0%nat.
  induction segs as [|[run c] segs IH]; intros i; [reflexivity|].
  rewrite bind_cons. simpl. rewrite !length_app, length_replicate, (IH (S i)).
  simpl. lia.
Qed.

Lemma retokenized_differs segs trailing :
  Exists (fun p => p.1 ≠ []) segs -> original segs ≠ retokenized segs trailing.
Proof.
  intros He Heq. apply (gaps_of_nonempty _ 0%nat) in He.
  apply (f_equal (fun s => length (chars s))) in Heq.
  unfold original, retokenized in Heq.
  rewrite !chars_of_list, length_app, length_fmap, length_retokenized_chars in Heq.
  destruct (gaps_of segs 0); [done|]. simpl in Heq. lia.
Qed.

(** Once a gap has been recorded, characters inserted after the end of the
    original string change nothing in the alignment. *)
Lemma align_trailing_irrelevant segs trailing annotations :
  distinguishable segs ->
  Exists (fun p => p.1 ≠ []) segs ->
  align_annotation_with_sentence (original segs) (retokenized segs trailing) annotations
  = align_annotation_with_sentence (original segs) (retokenized segs []) annotations.
Proof.
  intros Hd He. unfold align_annotation_with_sentence, align_general.
  destruct (String.eqb_spec (original segs) (retokenized segs trailing)) as [Heq|_];
    [now apply retokenized_differs in Heq|].
  destruct (String.eqb_spec (original segs) (retokenized segs [])) as [Heq|_];
    [now apply retokenized_differs in Heq|].
  now rewrite !gap_scan_insertion.
Qed.

End Insertion.

(** ** Alignment *)

Section MapM.

Context {A B : Type} (f : A -> Res B).

Lemma mapM_Res_cons x l :
  mapM f (x :: l) =
  match f x with
  | Ok y => match mapM f l with Ok k => Ok (y :: k) | Err e => Err e end
  | Err e => Err e
  end.
Proof. reflexivity. Qed.

Lemma mapM_Res_Ok l k : mapM f l = Ok k <-> Forall2 (fun x y => f x = Ok y) l k.
Proof.
  revert k. induction l as [|x l IH]; intros k.
  - split; [intros [= <-]; constructor|inversion 1; reflexivity].
  - rewrite mapM_Res_cons. destruct (f x) as [y|e] eqn:Hx.
    + destruct (mapM f l) as [k'|e] eqn:Hl.
      * split.
        -- intros [= <-]. constructor; [exact Hx|]. now apply IH.
        -- inversion 1 as [|? y' ? k'' Hy Hk]; subst.
           apply IH in Hk. congruence.
      * split; [discriminate|].
        inversion 1 as [|? y' ? k'' Hy Hk]; subst. apply IH in Hk. discriminate.
    + split; [discriminate|]. inversion 1; congruence.
Qed.

Lemma mapM_Res_Err l e : mapM f l = Err e -> Exists (fun x => f x = Err e) l.
Proof.
  induction l as [|x l IH]; [discriminate|].
  rewrite mapM_Res_cons. destruct (f x) as [y|e'] eqn:Hx.
  - destruct (mapM f l) as [k'|e'] eqn:Hl; [discriminate|].
    intros [= ->]. right. now apply IH.
  - intros [= ->]. now left.
Qed.

Lemma mapM_Res_total l :
  Forall (fun x => exists y, f x = Ok y) l -> exists k, mapM f l = Ok k.
Proof.
  induction 1 as [|x l [y Hy] _ [k Hk]]; [by exists []|].
  rewrite mapM_Res_cons, Hy, Hk. eauto.
Qed.

End MapM.

Section Align.

Implicit Types (gaps : list nat) (ann : Annotation) (fe : FrameElement).

Lemma align_fe_Ok gaps fe fe' :
  align_fe gaps fe = Ok fe' <-> fe_aligned (correct_pos gaps) fe fe'.
Proof.
  unfold align_fe, fe_aligned, mbind, Res_bind, mret, Res_ret.
  destruct (correct_pos gaps (fe_start fe)) as [s|e];
    [destruct (correct_pos gaps (fe_end fe)) as [e'|e]|].
  - destruct fe'; simpl. split.
    + intros [= <- <- <-]. done.
    + intros (-> & [= ->] & [= ->]). done.
  - split; [discriminate|]. intros (_ & _ & ?). discriminate.
  - split; [discriminate|]. intros (_ & ? & _). discriminate.
Qed.

Lemma align_ann_Ok gaps ann ann' :
  align_ann gaps ann = Ok ann' <-> ann_aligned (correct_pos gaps) ann ann'.
Proof.
  unfold align_ann, ann_aligned, mbind, Res_bind, mret, Res_ret.
  destruct (correct_pos gaps (t_start (ann_target ann))) as [s|e];
    [destruct (correct_pos gaps (t_end (ann_target ann))) as [e'|e];
     [destruct (mapM (align_fe gaps) (ann_FE ann)) as [fes|e] eqn:Hfes|]|].
  - assert (Hfes' : Forall2 (fe_aligned (correct_pos gaps)) (ann_FE ann) fes).
    { eapply Forall2_impl; [exact (proj1 (mapM_Res_Ok _ _ _) Hfes)|].
      intros ??. apply align_fe_Ok. }
    destruct ann' as [i si fn [ts te] fes']; simpl. split.
    + intros [= <- <- <- <- <- <-]. done.
    + intros (-> & -> & -> & [= ->] & [= ->] & Hf).
      do 2 f_equal. symmetry.
      assert (Hm : mapM (align_fe gaps) (ann_FE ann) = Ok fes').
      { apply mapM_Res_Ok. eapply Forall2_impl; [exact Hf|].
        intros ??. apply align_fe_Ok. }
      pose proof (eq_trans (eq_sym Hm) Hfes) as [= ->]. reflexivity.
  - split; [discriminate|]. intros (_ & _ & _ & _ & _ & Hf).
    assert (Hm : mapM (align_fe gaps) (ann_FE ann) = Ok (ann_FE ann')).
    { apply mapM_Res_Ok. eapply Forall2_impl; [exact Hf|].
      intros ??. apply align_fe_Ok. }
    pose proof (eq_trans (eq_sym Hm) Hfes). discriminate.
  - split; [discriminate|]. intros (_ & _ & _ & _ & ? & _). discriminate.
  - split; [discriminate|]. intros (_ & _ & _ & ? & _). discriminate.
Qed.

Lemma align_fe_Err gaps fe e :
  align_fe gaps fe = Err e -> gaps = [] /\ e = UnboundLocalError "i".
Proof.
  unfold align_fe, mbind, Res_bind, mret, Res_ret.
  destruct (correct_pos gaps (fe_start fe)) as [s|e1] eqn:H1;
    [destruct (correct_pos gaps (fe_end fe)) as [e'|e2] eqn:H2|];
    [discriminate| |]; intros [= <-]; eauto using correct_pos_Err.
Qed.

Lemma align_ann_Err gaps ann e :
  align_ann gaps ann = Err e -> gaps = [] /\ e = UnboundLocalError "i".
Proof.
  unfold align_ann, mbind, Res_bind, mret, Res_ret.
  destruct (correct_pos gaps (t_start (ann_target ann))) as [s|e1] eqn:H1;
    [destruct (correct_pos gaps (t_end (ann_target ann))) as [e'|e2] eqn:H2;
     [destruct (mapM (align_fe gaps) (ann_FE ann)) as [fes|e3] eqn:H3|]|];
    [discriminate| | |]; intros [= <-]; eauto using correct_pos_Err.
  apply mapM_Res_Err, Exists_exists in H3 as (fe & _ & Hfe).
  eauto using align_fe_Err.
Qed.

Lemma ann_aligned_Ok ann : ann_aligned Ok ann ann.
Proof.
  repeat split. induction (ann_FE ann); constructor; [repeat split|assumption].
Qed.

(** The fast path. *)
Lemma align_same sent annotations :
  align_annotation_with_sentence sent sent annotations = Ok annotations.
Proof. unfold align_annotation_with_sentence. now rewrite String.eqb_refl. Qed.

Lemma scan_suffix_prefix s t i gaps : scan_suffix (s ++ t) s i gaps = gaps.
Proof.
  revert i. induction s as [|a s IH]; intros i; simpl.
  - apply scan_suffix_nil_r.
  - rewrite bool_decide_eq_false_2 by (intros H; now apply H). apply IH.
Qed.

Lemma chars_append s t : chars (s +:+ t) = chars s ++ chars t.
Proof. unfold chars. induction s; simpl; [reflexivity|]. now f_equal. Qed.

(** Characters added after the whole of [sent] are never compared with
    anything: no gap is recorded, whatever they are. *)
Lemma gap_scan_trailing_only sent trailing : gap_scan sent (sent +:+ trailing) = [].
Proof. rewrite gap_scan_suffix, chars_append. apply scan_suffix_prefix. Qed.


Lemma align_general_no_gaps sent new_sent ann annotations :
  gap_scan sent new_sent = [] ->
  align_general sent new_sent (ann :: annotations) = Err (UnboundLocalError "i").
Proof. unfold align_general. intros ->. reflexivity. Qed.

(** Trailing insertions alone: the loop of [correct_pos] has nothing to run
    over and its [i] stays unbound. *)
Lemma align_trailing_only sent c trailing ann annotations :
  align_annotation_with_sentence sent (sent +:+ String c trailing) (ann :: annotations)
  = Err (UnboundLocalError "i").
Proof.
  unfold align_annotation_with_sentence.
  destruct (String.eqb_spec sent (sent +:+ String c trailing)) as [Heq|_].
  - apply (f_equal (fun s => length (chars s))) in Heq.
    rewrite chars_append, length_app in Heq. simpl in Heq. lia.
  - apply align_general_no_gaps, gap_scan_trailing_only.
Qed.

End Align.

(** ** Results on the aligner *)

(** C1, as amended.  Take any string, put runs of characters before some of
    its characters and after its end, none of them equal to the character
    it is put before, and at least one of them before a character.  Then
    the gap scan followed by [correct_pos] sends every offset of the
    original string to the offset of the same character in the new string. *)
Theorem insertion_round_trip (segs : insertion) (trailing : list ascii) (pos : nat) :
  distinguishable segs ->
  Exists (fun p => p.1 ≠ []) segs ->
  (pos < length segs)%nat ->
  correct_pos (gap_scan (original segs) (retokenized segs trailing)) (Z.of_nat pos)
  = Ok (Z.of_nat (new_offset segs pos))
  /\ char_at (retokenized segs trailing) (new_offset segs pos)
     = char_at (original segs) pos.
Proof.
  intros Hd He Hpos. rewrite gap_scan_insertion by done. split.
  - rewrite correct_pos_nonempty by now apply gaps_of_nonempty.
    f_equal. pose proof (gaps_up_to_insertion segs 0 pos Hpos) as H.
    simpl in H. lia.
  - rewrite !char_at_chars. unfold original, retokenized.
    rewrite !chars_of_list. now apply new_offset_char.
Qed.

Lemma insertion_round_trip_colon :
  correct_pos (gap_scan (original colon_insertion) (retokenized colon_insertion [" "%char]))
    (Z.of_nat 3)
  = Ok (Z.of_nat (new_offset colon_insertion 3))
  /\ char_at (retokenized colon_insertion [" "%char]) (new_offset colon_insertion 3)
     = char_at (original colon_insertion) 3.
Proof.
  apply insertion_round_trip.
  - unfold distinguishable, colon_insertion.
    repeat (constructor; simpl); discriminate.
  - unfold colon_insertion. apply Exists_cons_tl, Exists_cons_hd. discriminate.
  - simpl. lia.
Defined.

(** C1 as stated fails.  ["aab"] is ["ab"] with an ["a"] put in front, so
    the character at offset 0 of ["ab"] stands at offset 1 of ["aab"]; the
    scan pairs it with the inserted ["a"] and offset 0 stays 0. *)
Lemma repeated_character_misaligned :
  original repeated_insertion = "ab"
  /\ retokenized repeated_insertion [] = "aab"
  /\ new_offset repeated_insertion 0 = 1%nat
  /\ gap_scan "ab" "aab" = [1%nat]
  /\ correct_pos (gap_scan "ab" "aab") 0 = Ok 0.
Proof. repeat split. Qed.

(** C2, as amended.  On a non-empty ascending gap list [correct_pos]
    returns [pos + k], [k] being the number of gaps met before the first
    gap greater than [pos]; that is [pos] plus the number of all gaps when
    none is greater, and in every case [pos + count(gaps <= pos)]. *)
Theorem correct_pos_counts_gaps_le (gaps : list nat) (pos : Z) :
  gaps ≠ [] ->
  Sorted Nat.le gaps ->
  correct_pos gaps pos = Ok (pos + Z.of_nat (gaps_up_to pos gaps))
  /\ (Forall (fun g => Z.of_nat g <= pos) gaps ->
      correct_pos gaps pos = Ok (pos + Z.of_nat (length gaps)))
  /\ correct_pos gaps pos = Ok (pos + Z.of_nat (count_le pos gaps)).
Proof.
  intros Hne Hs. rewrite correct_pos_nonempty by done. repeat split.
  - intros Hall. now rewrite gaps_up_to_all.
  - now rewrite gaps_up_to_count_le.
Qed.

Lemma correct_pos_counts_gaps_le_doctest :
  correct_pos [7; 14]%nat 14 = Ok (14 + Z.of_nat (gaps_up_to 14 [7; 14]%nat))
  /\ (Forall (fun g => Z.of_nat g <= 14) [7; 14]%nat ->
      correct_pos [7; 14]%nat 14 = Ok (14 + Z.of_nat (length [7; 14]%nat)))
  /\ correct_pos [7; 14]%nat 14 = Ok (14 + Z.of_nat (count_le 14 [7; 14]%nat)).
Proof.
  apply correct_pos_counts_gaps_le.
  - discriminate.
  - repeat constructor.
Defined.

(** C2 as stated fails: a gap at [pos] itself is counted.  With the one gap
    7, offset 7 becomes 8, where both wordings of the claim give 7. *)
Lemma gap_at_pos_is_counted :
  correct_pos [7%nat] 7 = Ok 8
  /\ 7 + Z.of_nat (spec_gaps_before_ge 7 [7%nat]) = 7
  /\ 7 + Z.of_nat (count_lt 7 [7%nat]) = 7.
Proof. repeat split. Qed.

(** C3, at the input where the code departs from it.  A blank added after
    the whole of ["ab"] records no gap; with no gap [correct_pos] raises,
    and aligning an annotation fails where the claim has it succeed with
    the offsets as they were. *)
Theorem trailing_insertion_raises :
  gap_scan "ab" "ab " = []
  /\ align_annotation_with_sentence "ab" "ab" [small_ann] = Ok [small_ann]
  /\ align_annotation_with_sentence "ab" "ab " [small_ann]
     = Err (UnboundLocalError "i").
Proof.
  split; [apply (gap_scan_trailing_only "ab" " ")|].
  split; [apply align_same|].
  apply (align_trailing_only "ab" " "%char "").
Qed.


(** C5.  The doctest's first annotation: the blank put before the first
    colon is the gap 7, the target (0,1) and the span (3,6) stay, and (7,7)
    becomes (8,8).  Every offset of the annotation below 7 is unchanged and
    every one from 7 on moves by one; so do all offsets below 7 and all
    offsets from 7 to 13. *)
Theorem align_doctest_first_annotation :
  gap_scan doc_sent doc_new_sent = [7; 14]%nat
  /\ align_annotation_with_sentence doc_sent doc_new_sent [doc_ann1]
     = Ok [doc_ann1_aligned]
  /\ Forall (fun o =>
       (o < 7 -> offset_map doc_sent doc_new_sent o = Ok o)
       /\ (7 <= o -> offset_map doc_sent doc_new_sent o = Ok (o + 1)))
       (offsets_of doc_ann1)
  /\ (forall pos, pos < 7 -> offset_map doc_sent doc_new_sent pos = Ok pos)
  /\ (forall pos, 7 <= pos < 14 ->
        offset_map doc_sent doc_new_sent pos = Ok (pos + 1)).
Proof.
  assert (Hgaps : gap_scan doc_sent doc_new_sent = [7; 14]%nat) by reflexivity.
  assert (Hmap : offset_map doc_sent doc_new_sent = correct_pos [7; 14]%nat)
    by reflexivity.
  assert (Hlow : forall pos, pos < 7 -> correct_pos [7; 14]%nat pos = Ok pos).
  { intros pos Hpos. unfold correct_pos. cbn [correct_pos_for].
    change (Z.of_nat 7) with 7.
    destruct (Z.ltb_spec pos 7); [f_equal; lia|lia]. }
  assert (Hmid : forall pos, 7 <= pos < 14 ->
            correct_pos [7; 14]%nat pos = Ok (pos + 1)).
  { intros pos Hpos. unfold correct_pos. cbn [correct_pos_for].
    change (Z.of_nat 7) with 7. change (Z.of_nat 14) with 14.
    destruct (Z.ltb_spec pos 7); [lia|].
    destruct (Z.ltb_spec pos 14); [reflexivity|lia]. }
  rewrite Hmap. split; [exact Hgaps|]. split; [reflexivity|].
  split; [|split; assumption].
  unfold offsets_of, doc_ann1. simpl.
  repeat constructor; intros; first [apply Hlow | apply Hmid]; lia.
Qed.

(** The whole doctest, second annotation included: from the second colon
    on, at offset 14, two blanks have been put in. *)
Example align_doctest :
  align_annotation_with_sentence doc_sent doc_new_sent [doc_ann1; doc_ann2]
  = Ok [doc_ann1_aligned; doc_ann2_aligned].
Proof. reflexivity. Qed.

(** C8.  When alignment returns, the annotations it returns are the given
    ones, in number and order, with the same [id], [sent_id], [frame_name]
    and frame-element names, and every offset sent through the same map on
    its own.  It raises only when the strings differ, no gap was recorded
    and there is an annotation to correct. *)
Theorem align_rewrites_only_offsets
  (sent new_sent : string) (annotations : list Annotation) :
  match align_annotation_with_sentence sent new_sent annotations with
  | Ok new_anns =>
      Forall2 (ann_aligned (offset_map sent new_sent)) annotations new_anns
  | Err e =>
      e = UnboundLocalError "i" /\ sent ≠ new_sent
      /\ gap_scan sent new_sent = [] /\ annotations ≠ []
  end.
Proof.
  unfold align_annotation_with_sentence, offset_map.
  destruct (String.eqb_spec sent new_sent) as [->|Hne].
  - induction annotations; constructor; auto using ann_aligned_Ok.
  - unfold align_general.
    destruct (mapM _ annotations) as [new_anns|e] eqn:Hm.
    + apply mapM_Res_Ok in Hm. eapply Forall2_impl; [exact Hm|].
      intros ??. apply align_ann_Ok.
    + apply mapM_Res_Err, Exists_exists in Hm as (ann & Hin & Hann).
      apply align_ann_Err in Hann as [-> ->].
      repeat split; [done..|]. intros ->. inversion Hin.
Qed.

(** ** The parser *)

Lemma getitem_Some (d : gmap string string) k v : d !! k = Some v -> getitem d k = Ok v.
Proof. unfold getitem. now intros ->. Qed.

Lemma getitem_None (d : gmap string string) k : d !! k = None -> getitem d k = Err (KeyError k).
Proof. unfold getitem. now intros ->. Qed.

Lemma getitem_Ok (d : gmap string string) k v : getitem d k = Ok v -> d !! k = Some v.
Proof. unfold getitem. destruct (d !! k); now intros [= ->]. Qed.

(** The XPath predicate [not(@itype)] as a filter over all FE labels. *)
Lemma xpath_FE_label_filter a :
  xpath_FE_label a
  = filter (fun l => attrib l !! "itype" = None) (fe_layer_labels a).
Proof.
  unfold xpath_FE_label, fe_layer_labels.
  induction (layers "FE" a) as [|ly lys IH]; [reflexivity|].
  rewrite !bind_cons, filter_app, IH. f_equal.
  rewrite list_filter_filter. apply list_filter_iff. tauto.
Qed.

Lemma FE_body_Some l fe :
  FE_body l = Ok (Some fe) -> is_Some (attrib l !! "start") /\ fe_of_label l fe.
Proof.
  unfold FE_body. case_bool_decide as Hs; [|discriminate].
  unfold_Res. intros H. split; [exact Hs|].
  destruct (getitem (attrib l) "start") as [sv|] eqn:Hsv; [|discriminate].
  destruct (py_int sv) as [s|] eqn:Hps; [|discriminate].
  destruct (getitem (attrib l) "end") as [ev|] eqn:Hev; [|discriminate].
  destruct (py_int ev) as [e|] eqn:Hpe; [|discriminate].
  destruct (getitem (attrib l) "name") as [n|] eqn:Hn; [|discriminate].
  injection H as <-. exists sv, ev. simpl. repeat split; auto using getitem_Ok.
Qed.

Lemma FE_body_None l : FE_body l = Ok None -> ¬ is_Some (attrib l !! "start").
Proof.
  unfold FE_body. case_bool_decide as Hs; [|done].
  unfold_Res. intros H.
  destruct (getitem (attrib l) "start") as [sv|]; [|discriminate].
  destruct (py_int sv) as [s|]; [|discriminate].
  destruct (getitem (attrib l) "end") as [ev|]; [|discriminate].
  destruct (py_int ev) as [e|]; [|discriminate].
  destruct (getitem (attrib l) "name") as [n|]; discriminate.
Qed.

Lemma FE_loop_cons l labels FE :
  FE_loop (l :: labels) FE =
  match FE_body l with
  | Ok r => FE_loop labels (match r with Some fe => FE ++ [fe] | None => FE end)
  | Err e => Err e
  end.
Proof. reflexivity. Qed.

(** The loop appends, in order, one frame element for every label that has
    a [start], and nothing else. *)
Lemma FE_loop_Ok labels FE fes :
  FE_loop labels FE = Ok fes ->
  exists new, fes = FE ++ new
    /\ Forall2 fe_of_label
         (filter (fun l => is_Some (attrib l !! "start")) labels) new.
Proof.
  revert FE. induction labels as [|l labels IH]; intros FE.
  - intros [= <-]. exists []. rewrite app_nil_r. split; [done|constructor].
  - rewrite FE_loop_cons. destruct (FE_body l) as [[fe|]|e] eqn:Hl; [| |discriminate].
    + intros H. apply FE_body_Some in Hl as [Hs Hfe].
      destruct (IH _ H) as (new & -> & Hnew). exists (fe :: new).
      rewrite <- app_assoc. split; [done|].
      rewrite filter_cons_True by done. now constructor.
    + intros H. apply FE_body_None in Hl.
      destruct (IH _ H) as (new & -> & Hnew). exists new. split; [done|].
      now rewrite filter_cons_False.
Qed.

Lemma FE_loop_app l1 l2 FE :
  FE_loop (l1 ++ l2) FE =
  match FE_loop l1 FE with
  | Ok FE' => FE_loop l2 FE'
  | Err e => Err e
  end.
Proof.
  revert FE. induction l1 as [|l l1 IH]; intros FE; [reflexivity|].
  rewrite <- app_comm_cons, !FE_loop_cons. destruct (FE_body l); [apply IH|reflexivity].
Qed.

Lemma annotations_loop_cons sent_id sent_str a sets annotations err :
  annotations_loop sent_id sent_str (a :: sets) annotations err =
  match annotation_body sent_id sent_str a err with
  | (err', Ok r) =>
      annotations_loop sent_id sent_str sets
        (match r with Some ann => annotations ++ [ann] | None => annotations end) err'
  | (err', Err e) => (err', Err e)
  end.
Proof. reflexivity. Qed.

Lemma annotations_loop_app sent_id sent_str l1 l2 annotations err :
  annotations_loop sent_id sent_str (l1 ++ l2) annotations err =
  match annotations_loop sent_id sent_str l1 annotations err with
  | (err', Ok annotations') => annotations_loop sent_id sent_str l2 annotations' err'
  | (err', Err e) => (err', Err e)
  end.
Proof.
  revert annotations err. induction l1 as [|a l1 IH]; intros annotations err; [reflexivity|].
  rewrite <- app_comm_cons, !annotations_loop_cons.
  destruct (annotation_body sent_id sent_str a err) as [err' [r|e]]; [apply IH|reflexivity].
Qed.

(** Line 86: anything but exactly one target label is the [continue]. *)
Lemma annotation_body_discard sent_id sent_str a id err :
  attrib a !! "ID" = Some id ->
  length (xpath_target_label a) ≠ 1%nat ->
  annotation_body sent_id sent_str a err = (err, Ok None).
Proof.
  intros Hid Hlen. unfold annotation_body. unfold_M.
  rewrite (getitem_Some _ _ _ Hid).
  destruct (xpath_target_label a) as [|t [|t' ts]]; simpl in *; done.
Qed.

Lemma annotation_body_Some sent_id sent_str a err err' ann :
  annotation_body sent_id sent_str a err = (err', Ok (Some ann)) ->
  FE_loop (xpath_FE_label a) [] = Ok (ann_FE ann).
Proof.
  unfold annotation_body. unfold_M.
  destruct (getitem (attrib a) "ID") as [id|]; [|discriminate].
  destruct (xpath_target_label a) as [|t [|t' ts]]; [discriminate| |discriminate].
  destruct (getitem (attrib t) "start") as [sv|]; [|discriminate].
  destruct (py_int sv) as [s|]; [|discriminate].
  destruct (getitem (attrib t) "end") as [ev|]; [|discriminate].
  destruct (py_int ev) as [e|]; [|discriminate].
  destruct (FE_loop (xpath_FE_label a) []) as [FE|]; [|discriminate].
  destruct (getitem (attrib a) "frameName") as [fn|].
  - case_bool_decide; intros [= _ <-]; reflexivity.
  - case_bool_decide; discriminate.
Qed.

Section SentenceLoop.

Variable decode_utf8 : string -> Res string.

Lemma sentences_loop_cons sent sents result err :
  sentences_loop decode_utf8 (sent :: sents) result err =
  match sentence_body decode_utf8 sent err with
  | (err', Ok r) =>
      sentences_loop decode_utf8 sents
        (match r with Some rec => result ++ [rec] | None => result end) err'
  | (err', Err e) => (err', Err e)
  end.
Proof. reflexivity. Qed.

Lemma sentences_loop_app l1 l2 result err :
  sentences_loop decode_utf8 (l1 ++ l2) result err =
  match sentences_loop decode_utf8 l1 result err with
  | (err', Ok result') => sentences_loop decode_utf8 l2 result' err'
  | (err', Err e) => (err', Err e)
  end.
Proof.
  revert result err. induction l1 as [|s l1 IH]; intros result err; [reflexivity|].
  rewrite <- app_comm_cons, !sentences_loop_cons.
  destruct (sentence_body decode_utf8 s err) as [err' [r|e]]; [apply IH|reflexivity].
Qed.

End SentenceLoop.

Lemma annotations_loop_skip sent_id sent_str l1 a l2 annotations err :
  (forall err', annotation_body sent_id sent_str a err' = (err', Ok None)) ->
  annotations_loop sent_id sent_str (l1 ++ a :: l2) annotations err
  = annotations_loop sent_id sent_str (l1 ++ l2) annotations err.
Proof.
  intros Ha. rewrite !annotations_loop_app.
  destruct (annotations_loop sent_id sent_str l1 annotations err) as [err' [acc|e]];
    [|reflexivity].
  now rewrite annotations_loop_cons, Ha.
Qed.

(** C7.  The frame elements of a parsed annotation are, one for one and in
    document order, the FE labels that carry no [itype] and have a [start],
    each read off that label's [start], [end] and [name]: a label with an
    [itype], or without [start], contributes nothing, whatever else it
    carries. *)
Theorem null_instantiations_are_filtered
  (sent_id sent_str : string) (a : element) (err err' : list diagnostic)
  (ann : Annotation) :
  annotation_body sent_id sent_str a err = (err', Ok (Some ann)) ->
  Forall2 fe_of_label (filter instantiated (fe_layer_labels a)) (ann_FE ann).
Proof.
  intros H. apply annotation_body_Some, FE_loop_Ok in H as (new & -> & Hnew).
  rewrite xpath_FE_label_filter, list_filter_filter in Hnew. simpl.
  erewrite list_filter_iff; [exact Hnew|]. unfold instantiated. tauto.
Qed.

Section ParserResults.

Variable decode_utf8 : string -> Res string.

(** A sentence reads the same with a discarded annotation set taken out of
    its children. *)
Lemma sentence_body_without sent spre a spost id err :
  tag a = "annotationSet" ->
  attrib a !! "ID" = Some id ->
  length (xpath_target_label a) ≠ 1%nat ->
  children sent = spre ++ a :: spost ->
  sentence_body decode_utf8 sent err
  = sentence_body decode_utf8 (with_children sent (spre ++ spost)) err.
Proof.
  intros Htag Hid Hlen Hch.
  assert (Htext : xpath_text (with_children sent (spre ++ spost)) = xpath_text sent).
  { unfold xpath_text. simpl. rewrite Hch, !filter_app.
    rewrite (filter_cons_False _ a) by (rewrite Htag; discriminate). reflexivity. }
  assert (Hloop : forall sid sstr acc err0,
    annotations_loop sid sstr (xpath_manual (with_children sent (spre ++ spost))) acc err0
    = annotations_loop sid sstr (xpath_manual sent) acc err0).
  { intros. unfold xpath_manual. simpl. rewrite Hch, !filter_app.
    destruct (decide (attrib a !! "status" = Some "MANUAL")) as [Hst|Hst].
    - rewrite (filter_cons_True _ a) by done. symmetry.
      apply annotations_loop_skip. intros. now apply annotation_body_discard with id.
    - rewrite (filter_cons_False _ a) by tauto. reflexivity. }
  unfold sentence_body. unfold_M. simpl attrib. rewrite Htext.
  destruct (getitem (attrib sent) "ID") as [sid|]; [|reflexivity].
  destruct (first (xpath_text sent)) as [tn|]; [|reflexivity].
  destruct (text tn) as [raw|]; [|reflexivity].
  destruct (decode_utf8 raw) as [sstr|]; [|reflexivity].
  now rewrite Hloop.
Qed.

Lemma sentences_loop_ext l1 sent sent' l2 result err :
  (forall err', sentence_body decode_utf8 sent err' = sentence_body decode_utf8 sent' err') ->
  sentences_loop decode_utf8 (l1 ++ sent :: l2) result err
  = sentences_loop decode_utf8 (l1 ++ sent' :: l2) result err.
Proof.
  intros Hs. rewrite !sentences_loop_app.
  destruct (sentences_loop decode_utf8 l1 result err) as [err' [acc|e]]; [|reflexivity].
  now rewrite !sentences_loop_cons, Hs.
Qed.

(** C6.  A MANUAL annotation set that has an [ID] and whose Target layers
    hold no label, or two or more, makes the loop body take the [continue]:
    no annotation, no exception, nothing written.  The parse of the whole
    document, diagnostics and exceptions included, is what it is with that
    annotation set removed from its sentence. *)
Theorem annotation_without_single_target_is_dropped
  (path : string) (tree sent a : element) (id : string)
  (tpre tpost spre spost : list element)
  (sent_id sent_str : string) (err : list diagnostic) :
  tag a = "annotationSet" ->
  attrib a !! "status" = Some "MANUAL" ->
  attrib a !! "ID" = Some id ->
  length (xpath_target_label a) ≠ 1%nat ->
  children sent = spre ++ a :: spost ->
  children tree = tpre ++ sent :: tpost ->
  annotation_body sent_id sent_str a err = (err, Ok None)
  /\ parse_fulltext decode_utf8 path tree err
     = parse_fulltext decode_utf8 path
         (with_children tree (tpre ++ with_children sent (spre ++ spost) :: tpost))
         err.
Proof.
  intros Htag _ Hid Hlen Hsent Htree.
  split; [now apply annotation_body_discard with id|].
  assert (Hloop :
    sentences_loop decode_utf8 (xpath_sentence tree) [] err
    = sentences_loop decode_utf8
        (xpath_sentence
           (with_children tree (tpre ++ with_children sent (spre ++ spost) :: tpost)))
        [] err).
  { unfold xpath_sentence. simpl children. rewrite Htree, !filter_app.
    destruct (decide (tag sent = "sentence")) as [Hs|Hs].
    - rewrite !filter_cons_True by done.
      apply sentences_loop_ext. intros. now apply sentence_body_without with a id.
    - rewrite !filter_cons_False by done. reflexivity. }
  unfold parse_fulltext. unfold_M. now rewrite Hloop.
Qed.

(** C9.  An FE label without [itype] whose [start] is present and reads as
    an integer, but which has no [end], or has an [end] that reads as an
    integer and no [name], is not skipped: the loop body raises [KeyError]
    for the missing key, and when the parse gets as far as that label the
    whole of [parse_fulltext] ends in that exception. *)
Theorem fe_label_missing_key_aborts
  (path : string) (tree sent tnode a target label : element)
  (spre spost apre apost lpre lpost trest : list element)
  (err0 err1 err2 : list diagnostic)
  (result : list (string * list Annotation)) (annotations : list Annotation)
  (fes : list FrameElement)
  (sid raw sstr aid sv ev s key : string) (ts te z : Z) :
  attrib label !! "itype" = None ->
  attrib label !! "start" = Some s ->
  py_int s = Ok z ->
  (attrib label !! "end" = None /\ key = "end"
   \/ (exists e ze, attrib label !! "end" = Some e /\ py_int e = Ok ze)
      /\ attrib label !! "name" = None /\ key = "name") ->
  xpath_sentence tree = spre ++ sent :: spost ->
  sentences_loop decode_utf8 spre [] err0 = (err1, Ok result) ->
  attrib sent !! "ID" = Some sid ->
  xpath_text sent = tnode :: trest ->
  text tnode = Some raw ->
  decode_utf8 raw = Ok sstr ->
  xpath_manual sent = apre ++ a :: apost ->
  annotations_loop sid sstr apre [] err1 = (err2, Ok annotations) ->
  attrib a !! "ID" = Some aid ->
  xpath_target_label a = [target] ->
  attrib target !! "start" = Some sv -> py_int sv = Ok ts ->
  attrib target !! "end" = Some ev -> py_int ev = Ok te ->
  xpath_FE_label a = lpre ++ label :: lpost ->
  FE_loop lpre [] = Ok fes ->
  FE_body label = Err (KeyError key)
  /\ parse_fulltext decode_utf8 path tree err0 = (err2, Err (KeyError key)).
Proof.
  intros _ Hstart Hs Hkey Hsents Hspre Hsid Htext Hraw Hdec Hsets Hapre
    Haid Htarget Hsv Hts Hev Hte Hlabels Hlpre.
  assert (Hbody : FE_body label = Err (KeyError key)).
  { unfold FE_body. rewrite bool_decide_eq_true_2 by (rewrite Hstart; eauto).
    unfold_Res. rewrite (getitem_Some _ _ _ Hstart), Hs.
    destruct Hkey as [[Hend ->]|[(e & ze & Hend & He) [Hname ->]]].
    - now rewrite (getitem_None _ _ Hend).
    - now rewrite (getitem_Some _ _ _ Hend), He, (getitem_None _ _ Hname). }
  split; [exact Hbody|].
  assert (Hann : annotation_body sid sstr a err2 = (err2, Err (KeyError key))).
  { unfold annotation_body. unfold_M.
    rewrite (getitem_Some _ _ _ Haid), Htarget.
    rewrite (getitem_Some _ _ _ Hsv), Hts, (getitem_Some _ _ _ Hev), Hte.
    now rewrite Hlabels, FE_loop_app, Hlpre, FE_loop_cons, Hbody. }
  assert (Hsent : sentence_body decode_utf8 sent err1 = (err2, Err (KeyError key))).
  { unfold sentence_body. unfold_M.
    rewrite (getitem_Some _ _ _ Hsid), Htext. simpl. rewrite Hraw, Hdec.
    now rewrite Hsets, annotations_loop_app, Hapre, annotations_loop_cons, Hann. }
  unfold parse_fulltext. unfold_M.
  now rewrite Hsents, sentences_loop_app, Hspre, sentences_loop_cons, Hsent.
Qed.

End ParserResults.

Lemma annotation_without_single_target_is_dropped_dni :
  annotation_body "1278414" "Some text ." set_no_target [] = ([], Ok None)
  /\ parse_fulltext Ok "dni.xml" corpus_dni []
     = parse_fulltext Ok "dni.xml"
         (with_children corpus_dni
            ([header]
             ++ with_children sentence_dni
                  ([text_node; set_unannotated; set_importance] ++ [set_rewards])
             :: []))
         [].
Proof.
  apply (annotation_without_single_target_is_dropped Ok "dni.xml" corpus_dni
           sentence_dni set_no_target "2018467").
  - reflexivity.
  - vm_compute. reflexivity.
  - vm_compute. reflexivity.
  - vm_compute. lia.
  - reflexivity.
  - reflexivity.
Defined.

Lemma null_instantiations_are_filtered_dni :
  annotation_body "1278414" "Some text ." set_importance [] = ([], Ok (Some ann_importance))
  /\ length (fe_layer_labels set_importance) = 3%nat
  /\ Forall2 fe_of_label (filter instantiated (fe_layer_labels set_importance))
       (ann_FE ann_importance).
Proof.
  split; [vm_compute; reflexivity|]. split; [vm_compute; reflexivity|].
  apply (null_instantiations_are_filtered "1278414" "Some text ." set_importance [] []).
  vm_compute. reflexivity.
Defined.

Lemma fe_label_missing_key_aborts_broken :
  FE_body label_no_end = Err (KeyError "end")
  /\ parse_fulltext Ok "broken.xml" corpus_broken []
     = ([NoFrameElement "Rewards_and_punishments" "Some text .";
         NoFrameElement "Rewards_and_punishments" "Some text ."],
        Err (KeyError "end")).
Proof.
  apply (fe_label_missing_key_aborts Ok "broken.xml" corpus_broken sentence_broken
           text_node set_broken
           (label [("start", "60"); ("end", "63"); ("name", "Target")])
           label_no_end
           [sentence_dni] [] [set_rewards] []
           [label [("start", "0"); ("end", "3"); ("name", "Entity")]] [] []
           [] [NoFrameElement "Rewards_and_punishments" "Some text ."]
           [NoFrameElement "Rewards_and_punishments" "Some text .";
            NoFrameElement "Rewards_and_punishments" "Some text ."]
           [("Some text .", [ann_importance; ann_rewards])]
           [mkAnnotation "2018466" "1278415" "Rewards_and_punishments"
              (mkTarget 154 163) []]
           [mkFrameElement 0 3 "Entity"]
           "1278415" "Some text ." "Some text ." "2018468" "60" "63" "65" "end"
           60 63 65).
  all: try (vm_compute; reflexivity).
  left. split; vm_compute; reflexivity.
Defined.

(** ** The distributor *)

Section ForEach.

Context {St A : Type} (f : A -> M St unit).

Lemma for_each_cons x l s :
  for_each f (x :: l) s =
  match f x s with
  | (s', Ok _) => for_each f l s'
  | (s', Err e) => (s', Err e)
  end.
Proof. reflexivity. Qed.

Lemma for_each_app l1 l2 s :
  for_each f (l1 ++ l2) s =
  match for_each f l1 s with
  | (s', Ok _) => for_each f l2 s'
  | (s', Err e) => (s', Err e)
  end.
Proof.
  revert s. induction l1 as [|x l1 IH]; intros s; [reflexivity|].
  rewrite <- app_comm_cons, !for_each_cons.
  destruct (f x s) as [s' [[]|e]]; [apply IH|reflexivity].
Qed.

Lemma for_each_total l :
  Forall (fun x => forall s, (f x s).2 = Ok ()) l ->
  forall s, (for_each f l s).2 = Ok ().
Proof.
  induction 1 as [|x l Hx _ IH]; intros s; [reflexivity|].
  rewrite for_each_cons. specialize (Hx s).
  destruct (f x s) as [s' [[]|e]]; simpl in Hx; [apply IH|discriminate].
Qed.

End ForEach.

Section Distribute.

Variables (fs : file_system) (output_dir : string) (print_sent_path : bool).

Lemma distribute_body_empty sent w :
  distribute_body fs output_dir print_sent_path (sent, []) w = (w, Err IndexError).
Proof. reflexivity. Qed.

(** A record with an annotation is nothing but its calls on the file
    system, made in order up to the first that raises. *)
Lemma distribute_body_actions sent a0 anns w :
  distribute_body fs output_dir print_sent_path (sent, a0 :: anns) w
  = for_each (perform fs) (record_actions output_dir print_sent_path (sent, a0 :: anns)) w.
Proof.
  unfold distribute_body, record_actions. unfold_M. cbn [first snd fst].
  assert (Hanns : forall l w0,
    for_each (fun ann =>
      write_file fs (output_dir +:+ "/" +:+ ann_id ann +:+ ".ann") (Pickled ann)) l w0
    = for_each (perform fs)
        ((fun ann => Write (annotation_file output_dir ann) (Pickled ann)) <$> l) w0).
  { induction l as [|ann l IH]; intros w0; [reflexivity|].
    rewrite fmap_cons, !for_each_cons. cbn [perform]. unfold annotation_file.
    destruct (write_file fs _ _ w0) as [w1 [[]|e]]; [apply IH|reflexivity]. }
  destruct print_sent_path.
  - cbn [app]. rewrite (for_each_cons (perform fs)). cbn [perform].
    unfold sentence_file.
    destruct (print_line fs _ w) as [w1 [[]|e]]; [|reflexivity].
    rewrite (for_each_cons (perform fs)). cbn [perform].
    destruct (write_file fs _ _ w1) as [w2 [[]|e]]; [apply Hanns|reflexivity].
  - cbn [app]. rewrite (for_each_cons (perform fs)). cbn [perform].
    unfold sentence_file.
    destruct (write_file fs _ _ w) as [w2 [[]|e]]; [apply Hanns|reflexivity].
Qed.

(** The loop over the records: the calls of the records before the first
    one without annotations, then [IndexError] if there is such a record. *)
Lemma distribute_loop_actions records w :
  for_each (distribute_body fs output_dir print_sent_path) records w
  = match for_each (perform fs)
            (served records ≫= record_actions output_dir print_sent_path) w with
    | (w', Ok _) => (w', outcome records)
    | (w', Err e) => (w', Err e)
    end.
Proof.
  unfold outcome. revert w.
  induction records as [|[sent [|a0 anns]] records IH]; intros w.
  - reflexivity.
  - rewrite for_each_cons, distribute_body_empty. reflexivity.
  - rewrite for_each_cons, distribute_body_actions. cbn [served].
    rewrite bind_cons, for_each_app.
    destruct (for_each (perform fs) (record_actions _ _ _) w) as [w1 [[]|e]];
      [|reflexivity].
    rewrite IH. destruct (for_each (perform fs) _ w1) as [w2 [[]|e]]; [|reflexivity].
    simpl length. repeat case_bool_decide; try reflexivity; lia.
Qed.

Lemma distribute_unfold records w :
  distribute_annotations fs records output_dir print_sent_path w
  = match path_exists fs output_dir w with
    | (w0, Ok there) =>
        match (if there then (w0, Ok ()) else mkdir fs output_dir w0) with
        | (w1, Ok _) =>
            for_each (distribute_body fs output_dir print_sent_path) records w1
        | (w1, Err e) => (w1, Err e)
        end
    | (w0, Err e) => (w0, Err e)
    end.
Proof.
  unfold distribute_annotations. unfold_M.
  destruct (path_exists fs output_dir w) as [w0 [[]|e]]; reflexivity.
Qed.

Lemma served_all records :
  Forall (fun record => record.2 ≠ []) records -> served records = records.
Proof.
  induction 1 as [|[sent [|a0 anns]] records Hne _ IH]; simpl; [done|done|].
  now rewrite IH.
Qed.

Lemma served_prefix records : exists rest, records = served records ++ rest.
Proof.
  induction records as [|[sent [|a0 anns]] records [rest IH]]; simpl;
    [by exists []|by eexists|].
  exists rest. now rewrite <- IH.
Qed.

Lemma served_before_empty pre sent post :
  served (pre ++ (sent, []) :: post) = served pre.
Proof.
  induction pre as [|[s [|a0 anns]] pre IH]; simpl; [done|done|]. now rewrite IH.
Qed.

Lemma perform_reliable l w :
  reliable fs -> (for_each (perform fs) l w).2 = Ok ().
Proof.
  intros (_ & Hm & Hp & Hw). apply for_each_total. apply Forall_forall.
  intros [p|s|p c] _ w0; simpl; auto.
Qed.

Lemma distribute_reliable records w :
  reliable fs ->
  Forall (fun record => record.2 ≠ []) records ->
  (distribute_annotations fs records output_dir print_sent_path w).2 = Ok ().
Proof.
  intros Hrel Hne. rewrite distribute_unfold.
  destruct Hrel as (He & Hm & Hrest). destruct (He output_dir w) as [there Hthere].
  destruct (path_exists fs output_dir w) as [w0 r]. simpl in Hthere. subst r.
  assert (Hloop : forall w1,
    (for_each (distribute_body fs output_dir print_sent_path) records w1).2 = Ok ()).
  { intros w1. rewrite distribute_loop_actions.
    pose proof (perform_reliable
                  (served records ≫= record_actions output_dir print_sent_path) w1
                  (conj He (conj Hm Hrest))) as Hok.
    destruct (for_each (perform fs) _ w1) as [w2 [[]|e]]; [|discriminate].
    unfold outcome. now rewrite served_all, bool_decide_eq_true_2. }
  destruct there; [apply Hloop|].
  specialize (Hm output_dir w0). destruct (mkdir fs output_dir w0) as [w1 [[]|e]];
    [apply Hloop|discriminate].
Qed.

Lemma distribute_loop_empty_record pre sent post w :
  for_each (distribute_body fs output_dir print_sent_path) (pre ++ (sent, []) :: post) w
  = match for_each (distribute_body fs output_dir print_sent_path) pre w with
    | (w', Ok _) => (w', Err IndexError)
    | (w', Err e) => (w', Err e)
    end.
Proof.
  rewrite for_each_app.
  destruct (for_each _ pre w) as [w' [[]|e]]; [|reflexivity].
  now rewrite for_each_cons, distribute_body_empty.
Qed.

Lemma distribute_empty_record pre sent post w :
  distribute_annotations fs (pre ++ (sent, []) :: post) output_dir print_sent_path w
  = match distribute_annotations fs pre output_dir print_sent_path w with
    | (w', Ok _) => (w', Err IndexError)
    | (w', Err e) => (w', Err e)
    end.
Proof.
  rewrite !distribute_unfold.
  destruct (path_exists fs output_dir w) as [w0 [there|e]]; [|reflexivity].
  destruct (if there then (w0, Ok ()) else mkdir fs output_dir w0) as [w1 [[]|e]];
    [|reflexivity].
  apply distribute_loop_empty_record.
Qed.

(** C10.  [distribute_annotations] needs an annotation in every record.
    When every record has one and no call on the file system raises, it
    returns normally.  A record with none makes it raise [IndexError] at
    [anns[0]], as soon as the records before it are done: the world is
    exactly as those records left it, so neither that sentence's file nor
    anything after it is written (and if one of those records had already
    raised, that exception stands). *)
Theorem distribute_needs_an_annotation_per_record
  (annotations : list (string * list Annotation)) (w : world fs) :
  (reliable fs ->
   Forall (fun record => record.2 ≠ []) annotations ->
   (distribute_annotations fs annotations output_dir print_sent_path w).2 = Ok ())
  /\ (forall pre sent post,
        annotations = pre ++ (sent, []) :: post ->
        distribute_annotations fs annotations output_dir print_sent_path w
        = match distribute_annotations fs pre output_dir print_sent_path w with
          | (w', Ok _) => (w', Err IndexError)
          | (w', Err e) => (w', Err e)
          end).
Proof.
  split.
  - intros Hrel Hne. now apply distribute_reliable.
  - intros pre sent post ->. apply distribute_empty_record.
Qed.

End Distribute.

Section Memory.

Variables (output_dir : string) (print_sent_path : bool).

Lemma memory_reliable : reliable memory_fs.
Proof. repeat split. intros p w. eexists. reflexivity. Qed.

(** In memory every call returns, so a run ends as [outcome] says. *)
Lemma memory_perform l (w : memory) : (for_each (perform memory_fs) l w).2 = Ok ().
Proof. apply perform_reliable, memory_reliable. Qed.

Lemma memory_distribute_outcome records (w : memory) :
  (distribute_annotations memory_fs records output_dir print_sent_path w).2
  = outcome records.
Proof.
  rewrite distribute_unfold. cbn [path_exists memory_fs memory_exists].
  destruct (bool_decide _ || bool_decide _); cbn [mkdir memory_fs memory_mkdir];
    rewrite distribute_loop_actions;
    match goal with |- context [for_each (perform memory_fs) ?l ?w0] =>
      pose proof (memory_perform l w0) as Hok;
      destruct (for_each (perform memory_fs) l w0) as [w2 [[]|e]]
    end; try discriminate; reflexivity.
Qed.

(** On the file system in memory, where [IndexError] is the only exception
    there is: a record without annotations makes the run end in it, with
    the memory as the records before it left it. *)
Lemma memory_distribute_needs_an_annotation_per_record
  (annotations : list (string * list Annotation)) (w : memory) :
  (Forall (fun record => record.2 ≠ []) annotations ->
   (distribute_annotations memory_fs annotations output_dir print_sent_path w).2 = Ok ())
  /\ (forall pre sent post,
        annotations = pre ++ (sent, []) :: post ->
        distribute_annotations memory_fs annotations output_dir print_sent_path w
        = ((distribute_annotations memory_fs pre output_dir print_sent_path w).1,
           Err IndexError)).
Proof.
  split.
  - intros Hne. apply distribute_reliable; [apply memory_reliable|done].
  - intros pre sent post ->. rewrite distribute_empty_record.
    pose proof (memory_distribute_outcome pre w) as Hout.
    destruct (distribute_annotations memory_fs pre _ _ w) as [w' [[]|e]]; [done|].
    simpl in Hout. unfold outcome in Hout.
    case_bool_decide; [discriminate|]. now injection Hout as ->.
Qed.

End Memory.

(** The distributor in memory on the parsed corpus followed by a record
    without annotations: the three files of the first record are there,
    and the exception. *)
Example distribute_then_empty_record :
  distribute_annotations memory_fs
    [("Some text .", [ann_importance; ann_rewards]); ("No annotation .", [])]
    "out" true empty_memory
  = (mkMemory {[ "out" ]}
       (<[ "out/2018466.ann" := Pickled ann_rewards ]>
          (<[ "out/2018465.ann" := Pickled ann_importance ]>
             (<[ "out/1278414.txt" := Text "Some text ." ]> ∅)))
       ["out/1278414.txt"],
     Err IndexError).
Proof. vm_compute. reflexivity. Qed.

Example parse_corpus_dni :
  parse_fulltext Ok "dni.xml" corpus_dni []
  = ([NoFrameElement "Rewards_and_punishments" "Some text ."],
     Ok [("Some text .", [ann_importance; ann_rewards])]).
Proof. vm_compute. reflexivity. Qed.

(** ** Further results on the aligner *)

Section ScanInvariant.

Variables sent new_sent : string.

Lemma Sorted_snoc (l : list nat) x :
  Sorted Nat.le l -> Forall (fun g => (g <= x)%nat) l -> Sorted Nat.le (l ++ [x]).
Proof.
  induction 1 as [|g l Hs IH Hhd]; intros Hall; simpl.
  - repeat constructor.
  - inversion Hall as [|? ? Hg Hl]; subst. constructor; [now apply IH|].
    destruct l; simpl; constructor; [done|]. now inversion Hhd.
Qed.

Lemma scan_invariant_init : scan_invariant sent new_sent scan_init.
Proof. unfold scan_invariant. simpl. repeat split; try lia; constructor. Qed.

Lemma scan_invariant_body st :
  scan_cond sent new_sent st = true ->
  scan_invariant sent new_sent st ->
  scan_invariant sent new_sent (scan_body sent new_sent st).
Proof.
  unfold scan_cond, scan_invariant, scan_body.
  rewrite andb_true_iff, !Nat.ltb_lt.
  intros [Hi Hj] (Hij & _ & _ & Hs & Hall).
  case_bool_decide; simpl.
  - rewrite length_app. simpl. repeat split; try lia.
    + apply Sorted_snoc; [done|]. eapply Forall_impl; [exact Hall|]. simpl. tauto.
    + apply Forall_app. split; [done|]. repeat constructor; lia.
  - repeat split; try lia; [done|].
    eapply Forall_impl; [exact Hall|]. simpl. lia.
Qed.

Lemma scan_invariant_loop fuel st :
  scan_invariant sent new_sent st ->
  scan_invariant sent new_sent (scan_loop sent new_sent fuel st).
Proof.
  revert st. induction fuel as [|fuel IH]; intros st Hinv; simpl; [done|].
  destruct (scan_cond sent new_sent st) eqn:Hc; [|done].
  now apply IH, scan_invariant_body.
Qed.

Lemma gap_scan_sorted : Sorted Nat.le (gap_scan sent new_sent).
Proof.
  unfold gap_scan.
  now destruct (scan_invariant_loop (String.length new_sent) scan_init
                  scan_invariant_init) as (_ & _ & _ & Hs & _).
Qed.

End ScanInvariant.

(** X1.  The scan loop is over after at most [len(new_sent)] iterations:
    by then its guard is false, and running it longer changes no variable. *)
Theorem gap_scan_loop_terminates (sent new_sent : string) (extra : nat) :
  scan_cond sent new_sent (scan_final sent new_sent) = false
  /\ scan_loop sent new_sent (String.length new_sent + extra) scan_init
     = scan_final sent new_sent.
Proof.
  split; [apply scan_loop_exits|apply scan_loop_fuel_irrelevant].
Qed.

(** X2.  When the scan ends, one of the two strings is used up, [j] is [i]
    plus the number of gaps, the gaps are in ascending order and each is an
    index of [sent]; so there are at most [len(new_sent)] of them. *)
Theorem gap_scan_result_shape (sent new_sent : string) :
  let st := scan_final sent new_sent in
  (sc_i st = String.length sent \/ sc_j st = String.length new_sent)
  /\ sc_j st = (sc_i st + length (gap_scan sent new_sent))%nat
  /\ Sorted Nat.le (gap_scan sent new_sent)
  /\ Forall (fun g => (g < String.length sent)%nat) (gap_scan sent new_sent)
  /\ (length (gap_scan sent new_sent) <= String.length new_sent)%nat.
Proof.
  intros st. pose proof (scan_loop_exits sent new_sent) as Hexit.
  destruct (scan_invariant_loop sent new_sent (String.length new_sent) scan_init
              (scan_invariant_init sent new_sent)) as (Hij & Hi & Hj & Hs & Hall).
  fold (scan_final sent new_sent) in *. fold st in Hexit, Hij, Hi, Hj, Hs, Hall.
  unfold gap_scan. fold (scan_final sent new_sent). fold st.
  unfold scan_cond in Hexit. rewrite andb_false_iff, !Nat.ltb_ge in Hexit.
  repeat split; try done; try lia.
  eapply Forall_impl; [exact Hall|]. simpl. tauto.
Qed.

(** X3.  Whatever the two strings are, once the scan has recorded a gap the
    correction of an offset is the offset plus the number of recorded gaps
    that are not above it. *)
Theorem correct_pos_after_scan (sent new_sent : string) (pos : Z) :
  gap_scan sent new_sent ≠ [] ->
  correct_pos (gap_scan sent new_sent) pos
  = Ok (pos + Z.of_nat (count_le pos (gap_scan sent new_sent))).
Proof.
  intros Hne. rewrite correct_pos_nonempty by done.
  now rewrite gaps_up_to_count_le by apply gap_scan_sorted.
Qed.

Lemma correct_pos_after_scan_doctest :
  correct_pos (gap_scan doc_sent doc_new_sent) 16
  = Ok (16 + Z.of_nat (count_le 16 (gap_scan doc_sent doc_new_sent))).
Proof. apply correct_pos_after_scan. vm_compute. discriminate. Defined.

Section Monotone.

Implicit Types (gaps : list nat) (pos : Z).

Lemma gaps_up_to_mono gaps pos1 pos2 :
  pos1 <= pos2 -> (gaps_up_to pos1 gaps <= gaps_up_to pos2 gaps)%nat.
Proof.
  intros Hle. induction gaps as [|g gaps IH]; simpl; [lia|].
  destruct (Z.ltb_spec pos1 (Z.of_nat g)), (Z.ltb_spec pos2 (Z.of_nat g)); lia.
Qed.

Lemma correct_pos_Ok gaps pos r :
  correct_pos gaps pos = Ok r -> r = pos + Z.of_nat (gaps_up_to pos gaps).
Proof.
  destruct gaps as [|g gaps]; [discriminate|].
  rewrite correct_pos_nonempty by done. now intros [= <-].
Qed.

Lemma offset_map_Ok sent new_sent pos r :
  offset_map sent new_sent pos = Ok r ->
  exists k : nat, r = pos + Z.of_nat k
    /\ forall pos' r', pos <= pos' -> offset_map sent new_sent pos' = Ok r' -> r <= r'.
Proof.
  unfold offset_map. destruct (String.eqb sent new_sent).
  - intros [= <-]. exists 0%nat. split; [lia|]. intros ? ? ? [= <-]. lia.
  - intros H. apply correct_pos_Ok in H as ->. eexists. split; [reflexivity|].
    intros pos' r' Hle H'. apply correct_pos_Ok in H' as ->.
    pose proof (gaps_up_to_mono (gap_scan sent new_sent) pos pos' Hle). lia.
Qed.

End Monotone.

(** X4.  [correct_pos] never moves an offset to the left, moves it by at
    most the number of gaps, and keeps offsets in their order: of two
    offsets it corrects, the smaller one stays strictly smaller. *)
Theorem correct_pos_monotone (gaps : list nat) (pos1 pos2 r1 r2 : Z) :
  correct_pos gaps pos1 = Ok r1 ->
  correct_pos gaps pos2 = Ok r2 ->
  pos1 <= r1 <= pos1 + Z.of_nat (length gaps)
  /\ (pos1 < pos2 -> r1 < r2).
Proof.
  intros H1 H2. apply correct_pos_Ok in H1 as ->. apply correct_pos_Ok in H2 as ->.
  pose proof (gaps_up_to_le pos1 gaps).
  repeat split; try lia.
  intros Hlt. pose proof (gaps_up_to_mono gaps pos1 pos2). lia.
Qed.

Lemma correct_pos_monotone_doctest :
  correct_pos [7; 14]%nat 14 = Ok 16
  /\ correct_pos [7; 14]%nat 16 = Ok 18
  /\ 14 <= 16 <= 14 + Z.of_nat (length [7; 14]%nat)
  /\ (14 < 16 -> 16 < 18).
Proof.
  split; [reflexivity|]. split; [reflexivity|].
  apply (correct_pos_monotone [7; 14]%nat 14 16 16 18); reflexivity.
Defined.

(** X5.  In what alignment returns, every target and every frame element
    that had [start <= end] still has, and no start has moved to the left. *)
Theorem align_keeps_spans_in_order
  (sent new_sent : string) (annotations new_anns : list Annotation) :
  align_annotation_with_sentence sent new_sent annotations = Ok new_anns ->
  Forall2 spans_kept annotations new_anns.
Proof.
  intros H.
  assert (Hal : Forall2 (ann_aligned (offset_map sent new_sent)) annotations new_anns).
  { revert H. unfold align_annotation_with_sentence, offset_map, align_general.
    destruct (String.eqb sent new_sent).
    - intros [= <-]. induction annotations; constructor; auto using ann_aligned_Ok.
    - intros H. apply mapM_Res_Ok in H. eapply Forall2_impl; [exact H|].
      intros ??. apply align_ann_Ok. }
  eapply Forall2_impl; [exact Hal|]. clear.
  intros ann ann' (_ & _ & _ & Hs & He & Hfes). unfold spans_kept, order_kept.
  destruct (offset_map_Ok _ _ _ _ Hs) as (k & Hk & Hmono).
  split; [intros Hle; exact (Hmono _ _ Hle He)|]. split; [lia|].
  eapply Forall2_impl; [exact Hfes|]. clear.
  intros fe fe' (_ & Hs & He).
  destruct (offset_map_Ok _ _ _ _ Hs) as (k & Hk & Hmono).
  split; [intros Hle; exact (Hmono _ _ Hle He)|lia].
Qed.

Lemma align_keeps_spans_in_order_doctest :
  Forall2 spans_kept [doc_ann1; doc_ann2] [doc_ann1_aligned; doc_ann2_aligned].
Proof.
  apply (align_keeps_spans_in_order doc_sent doc_new_sent). reflexivity.
Defined.

Lemma mapM_Res_app {A B} (f : A -> Res B) l1 l2 :
  mapM f (l1 ++ l2) =
  match mapM f l1 with
  | Ok k1 => match mapM f l2 with Ok k2 => Ok (k1 ++ k2) | Err e => Err e end
  | Err e => Err e
  end.
Proof.
  induction l1 as [|x l1 IH].
  - simpl app. change (mapM f []) with (Ok (@nil B)). now destruct (mapM f l2).
  - rewrite <- app_comm_cons, !mapM_Res_cons, IH.
    destruct (f x); [|reflexivity].
    destruct (mapM f l1); [|reflexivity]. now destruct (mapM f l2).
Qed.

(** X6.  Annotations are aligned one by one: aligning two lists put end to
    end gives the two aligned lists put end to end, and the first exception
    of either. *)
Theorem align_app (sent new_sent : string) (anns1 anns2 : list Annotation) :
  align_annotation_with_sentence sent new_sent (anns1 ++ anns2) =
  match align_annotation_with_sentence sent new_sent anns1 with
  | Ok new1 =>
      match align_annotation_with_sentence sent new_sent anns2 with
      | Ok new2 => Ok (new1 ++ new2)
      | Err e => Err e
      end
  | Err e => Err e
  end.
Proof.
  unfold align_annotation_with_sentence, align_general.
  destruct (String.eqb sent new_sent); [reflexivity|apply mapM_Res_app].
Qed.

Section Prefix.

Lemma scan_suffix_extends t s i gaps :
  exists more, scan_suffix t s i gaps = gaps ++ more
    /\ (more = [] <-> s `prefix_of` t \/ t `prefix_of` s).
Proof.
  revert s i gaps. induction t as [|b t IH]; intros s i gaps.
  - exists []. rewrite app_nil_r. split; [done|]. split; [|done].
    intros _. right. apply prefix_nil.
  - destruct s as [|a s].
    + exists []. rewrite app_nil_r. split; [done|]. split; [|done].
      intros _. left. apply prefix_nil.
    + simpl. destruct (decide (a = b)) as [->|Hab].
      * rewrite bool_decide_eq_false_2 by (intros H; now apply H).
        destruct (IH s (S i) gaps) as (more & -> & Hmore). exists more.
        split; [done|]. rewrite Hmore. split.
        -- intros [H|H]; [left|right]; now apply prefix_cons.
        -- intros [H|H]; [left|right]; now apply prefix_cons_inv_2 in H.
      * rewrite bool_decide_eq_true_2 by done.
        destruct (IH (a :: s) i (gaps ++ [i])) as (more & -> & _).
        exists (i :: more). rewrite <- app_assoc. split; [done|].
        split; [discriminate|].
        intros [H|H]; apply prefix_cons_inv_1 in H; congruence.
Qed.

(** The scan records nothing exactly when one string begins with the other. *)
Lemma gap_scan_nil_iff sent new_sent :
  gap_scan sent new_sent = []
  <-> chars sent `prefix_of` chars new_sent \/ chars new_sent `prefix_of` chars sent.
Proof.
  rewrite gap_scan_suffix.
  destruct (scan_suffix_extends (chars new_sent) (chars sent) 0 []) as (more & -> & H).
  exact H.
Qed.

End Prefix.

(** X7.  [align_annotation_with_sentence] raises exactly when there is an
    annotation to align and the two strings differ while one of them begins
    with the other (characters only added or only removed at the end); the
    exception is then the unbound [i] of [correct_pos]. *)
Theorem align_raises_iff
  (sent new_sent : string) (annotations : list Annotation) (e : exn) :
  align_annotation_with_sentence sent new_sent annotations = Err e
  <-> e = UnboundLocalError "i" /\ annotations ≠ [] /\ sent ≠ new_sent
      /\ (chars sent `prefix_of` chars new_sent
          \/ chars new_sent `prefix_of` chars sent).
Proof.
  rewrite <- gap_scan_nil_iff. unfold align_annotation_with_sentence. split.
  - destruct (String.eqb_spec sent new_sent) as [->|Hne]; [discriminate|].
    unfold align_general. intros Hm.
    apply mapM_Res_Err, Exists_exists in Hm as (ann & Hin & Hann).
    apply align_ann_Err in Hann as [-> ->].
    repeat split; [|done..]. intros ->. inversion Hin.
  - intros (-> & Hanns & Hne & Hgaps).
    destruct (String.eqb_spec sent new_sent) as [Heq|_]; [done|].
    destruct annotations as [|ann annotations]; [done|].
    now apply align_general_no_gaps.
Qed.

(** ** Further results on the parser *)

Section AnnotationBody.

Implicit Types (a : element) (err : list diagnostic).

(** Everything a returned annotation says about the annotation set it was
    read from, and what was written on the way. *)
Lemma annotation_body_inv sent_id sent_str a err err' ann :
  annotation_body sent_id sent_str a err = (err', Ok (Some ann)) ->
  attrib a !! "ID" = Some (ann_id ann)
  /\ ann_sent_id ann = sent_id
  /\ attrib a !! "frameName" = Some (ann_frame_name ann)
  /\ (exists target sv ev,
        xpath_target_label a = [target]
        /\ attrib target !! "start" = Some sv
        /\ py_int sv = Ok (t_start (ann_target ann))
        /\ attrib target !! "end" = Some ev
        /\ py_int ev = Ok (t_end (ann_target ann)))
  /\ err' = err ++ warnings_of_annotations sent_str [ann].
Proof.
  unfold annotation_body. unfold_M.
  destruct (getitem (attrib a) "ID") as [id|] eqn:Hid; [|discriminate].
  destruct (xpath_target_label a) as [|t [|t' ts]]; [discriminate| |discriminate].
  destruct (getitem (attrib t) "start") as [sv|] eqn:Hsv; [|discriminate].
  destruct (py_int sv) as [s|] eqn:Hs; [|discriminate].
  destruct (getitem (attrib t) "end") as [ev|] eqn:Hev; [|discriminate].
  destruct (py_int ev) as [e|] eqn:He; [|discriminate].
  destruct (FE_loop (xpath_FE_label a) []) as [FE|]; [|discriminate].
  destruct (getitem (attrib a) "frameName") as [fn|] eqn:Hfn;
    [|case_bool_decide; discriminate].
  apply getitem_Ok in Hid, Hsv, Hev, Hfn.
  unfold warnings_of_annotations.
  case_bool_decide as HFE; unfold stderr_write; intros [= <- <-]; simpl.
  - destruct FE; [|done]. rewrite filter_cons_True by done.
    repeat split; eauto 10.
  - destruct FE; [done|]. rewrite filter_cons_False by done.
    rewrite app_nil_r. repeat split; eauto 10.
Qed.

(** A loop step that returns no annotation has written nothing. *)
Lemma annotation_body_None sent_id sent_str a err err' :
  annotation_body sent_id sent_str a err = (err', Ok None) -> err' = err.
Proof.
  unfold annotation_body. unfold_M.
  destruct (getitem (attrib a) "ID") as [id|]; [|discriminate].
  destruct (xpath_target_label a) as [|t [|t' ts]]; [now intros [= <-]| |now intros [= <-]].
  destruct (getitem (attrib t) "start") as [sv|]; [|discriminate].
  destruct (py_int sv) as [s|]; [|discriminate].
  destruct (getitem (attrib t) "end") as [ev|]; [|discriminate].
  destruct (py_int ev) as [e|]; [|discriminate].
  destruct (FE_loop (xpath_FE_label a) []) as [FE|]; [|discriminate].
  destruct (getitem (attrib a) "frameName") as [fn|];
    case_bool_decide; unfold stderr_write; discriminate.
Qed.

Lemma warnings_of_annotations_app sent_str l1 l2 :
  warnings_of_annotations sent_str (l1 ++ l2)
  = warnings_of_annotations sent_str l1 ++ warnings_of_annotations sent_str l2.
Proof. unfold warnings_of_annotations. now rewrite filter_app, fmap_app. Qed.

Lemma annotations_loop_Ok sent_id sent_str sets annotations err err' anns :
  annotations_loop sent_id sent_str sets annotations err = (err', Ok anns) ->
  exists new, anns = annotations ++ new
    /\ Forall (fun ann => ann_sent_id ann = sent_id) new
    /\ err' = err ++ warnings_of_annotations sent_str new.
Proof.
  revert annotations err. induction sets as [|a sets IH]; intros annotations err.
  - intros [= <- <-]. exists []. now rewrite !app_nil_r.
  - rewrite annotations_loop_cons.
    destruct (annotation_body sent_id sent_str a err) as [err1 [[ann|]|e]] eqn:Ha;
      [| |discriminate]; intros H; destruct (IH _ _ H) as (new & -> & Hall & ->).
    + apply annotation_body_inv in Ha as (_ & Hsid & _ & _ & ->).
      exists (ann :: new). rewrite <- !app_assoc.
      split; [done|]. split; [now constructor|].
      now rewrite (warnings_of_annotations_app _ [ann] new).
    + apply annotation_body_None in Ha as ->. eauto.
Qed.

End AnnotationBody.

Section SentenceBody.

Variable decode_utf8 : string -> Res string.

Lemma sentence_body_Ok sent err err' r :
  sentence_body decode_utf8 sent err = (err', Ok r) ->
  match r with
  | Some record =>
      record_of decode_utf8 sent record
      /\ err' = err ++ warnings_of_annotations record.1 record.2
  | None => err' = err
  end.
Proof.
  unfold sentence_body. unfold_M.
  destruct (getitem (attrib sent) "ID") as [sid|] eqn:Hsid; [|discriminate].
  destruct (xpath_text sent) as [|tnode rest] eqn:Htext; [discriminate|]. simpl.
  destruct (text tnode) as [raw|] eqn:Hraw; [|discriminate].
  destruct (decode_utf8 raw) as [sstr|] eqn:Hdec; [|discriminate].
  destruct (annotations_loop sid sstr (xpath_manual sent) [] err)
    as [err1 [anns|e]] eqn:Hloop; [|discriminate].
  apply annotations_loop_Ok in Hloop as (new & -> & Hall & ->). simpl.
  apply getitem_Ok in Hsid.
  case_bool_decide as Hlen; intros [= <- <-].
  - split; [|done]. exists sid, tnode, rest, raw. simpl.
    repeat split; try done. intros ->. simpl in Hlen. lia.
  - destruct new; [now rewrite app_nil_r|simpl in Hlen; lia].
Qed.

Lemma warnings_of_app l1 l2 : warnings_of (l1 ++ l2) = warnings_of l1 ++ warnings_of l2.
Proof. unfold warnings_of. apply bind_app. Qed.

Lemma sentences_loop_Ok sents result err err' res :
  sentences_loop decode_utf8 sents result err = (err', Ok res) ->
  exists new, res = result ++ new
    /\ Forall (fun record => exists sent, sent ∈ sents /\ record_of decode_utf8 sent record) new
    /\ err' = err ++ warnings_of new.
Proof.
  revert result err. induction sents as [|sent sents IH]; intros result err.
  - intros [= <- <-]. exists []. rewrite !app_nil_r. repeat split. constructor.
  - rewrite sentences_loop_cons.
    destruct (sentence_body decode_utf8 sent err) as [err1 [r|e]] eqn:Hs; [|discriminate].
    intros H. destruct (IH _ _ H) as (new & -> & Hall & ->).
    assert (Hall' : Forall (fun record => exists s, s ∈ sent :: sents /\ record_of decode_utf8 s record) new).
    { eapply Forall_impl; [exact Hall|]. intros record (s & Hin & Hrec).
      exists s. split; [now right|done]. }
    apply sentence_body_Ok in Hs. destruct r as [record|].
    + destruct Hs as [Hrec ->]. exists (record :: new). rewrite <- !app_assoc.
      split; [done|]. split.
      * constructor; [|done]. exists sent. split; [now left|done].
      * unfold warnings_of at 2. rewrite bind_cons. reflexivity.
    + subst err1. eauto.
Qed.

(** X8.  Every record [parse_fulltext] returns comes from a sentence of the
    document: its text is the decoded text of the sentence's first [text]
    child, it has at least one annotation, and every annotation in it
    carries that sentence's [ID] as its [sent_id]. *)
Theorem parsed_records_come_from_sentences
  (path : string) (tree : element) (err err' : list diagnostic)
  (result : list (string * list Annotation)) :
  parse_fulltext decode_utf8 path tree err = (err', Ok result) ->
  Forall (fun record =>
    exists sent, sent ∈ children tree /\ tag sent = "sentence"
      /\ record_of decode_utf8 sent record) result.
Proof.
  unfold parse_fulltext. unfold_M.
  destruct (sentences_loop decode_utf8 (xpath_sentence tree) [] err)
    as [err1 [res|e]] eqn:Hloop; [|discriminate].
  apply sentences_loop_Ok in Hloop as (new & -> & Hall & _). simpl.
  intros H.
  assert (result = new) as ->.
  { revert H. case_bool_decide; unfold stderr_write; now intros [= _ <-]. }
  eapply Forall_impl; [exact Hall|]. intros record (sent & Hin & Hrec).
  exists sent. unfold xpath_sentence in Hin. apply list_elem_of_filter in Hin as [? ?].
  done.
Qed.

(** X9.  The diagnostics of a parse that returns are settled by what it
    returns: after what was there before, one [NoFrameElement] for every
    returned annotation without frame elements, in order, and then the
    [NoResult] warning exactly when nothing is returned. *)
Theorem parse_diagnostics
  (path : string) (tree : element) (err err' : list diagnostic)
  (result : list (string * list Annotation)) :
  parse_fulltext decode_utf8 path tree err = (err', Ok result) ->
  err' = err ++ warnings_of result
         ++ (match result with [] => [NoResult path] | _ :: _ => [] end).
Proof.
  unfold parse_fulltext. unfold_M.
  destruct (sentences_loop decode_utf8 (xpath_sentence tree) [] err)
    as [err1 [res|e]] eqn:Hloop; [|discriminate].
  apply sentences_loop_Ok in Hloop as (new & -> & _ & ->). simpl.
  case_bool_decide as Hlen; unfold stderr_write; intros [= <- <-].
  - destruct new; [|done]. now rewrite <- app_assoc.
  - destruct new; [done|]. now rewrite app_nil_r.
Qed.

End SentenceBody.

Lemma parsed_records_come_from_sentences_dni :
  Forall (fun record =>
    exists sent, sent ∈ children corpus_dni /\ tag sent = "sentence"
      /\ record_of Ok sent record)
    [("Some text .", [ann_importance; ann_rewards])].
Proof.
  apply (parsed_records_come_from_sentences Ok "dni.xml" corpus_dni []
           [NoFrameElement "Rewards_and_punishments" "Some text ."]).
  vm_compute. reflexivity.
Defined.

Lemma parse_diagnostics_dni :
  [NoFrameElement "Rewards_and_punishments" "Some text ."]
  = [] ++ warnings_of [("Some text .", [ann_importance; ann_rewards])] ++ [].
Proof.
  apply (parse_diagnostics Ok "dni.xml" corpus_dni []).
  vm_compute. reflexivity.
Defined.

(** X10.  An annotation the loop body returns is read off its annotation
    set: [id] is the set's [ID], [sent_id] the sentence's, [frame_name] the
    set's [frameName], and the target the integer [start] and [end] of the
    one label of the set's Target layers. *)
Theorem parsed_annotation_fields
  (sent_id sent_str : string) (a : element) (err err' : list diagnostic)
  (ann : Annotation) :
  annotation_body sent_id sent_str a err = (err', Ok (Some ann)) ->
  attrib a !! "ID" = Some (ann_id ann)
  /\ ann_sent_id ann = sent_id
  /\ attrib a !! "frameName" = Some (ann_frame_name ann)
  /\ exists target sv ev,
       xpath_target_label a = [target]
       /\ attrib target !! "start" = Some sv
       /\ py_int sv = Ok (t_start (ann_target ann))
       /\ attrib target !! "end" = Some ev
       /\ py_int ev = Ok (t_end (ann_target ann)).
Proof.
  intros H. apply annotation_body_inv in H as (? & ? & ? & ? & _). done.
Qed.

Lemma parsed_annotation_fields_dni :
  attrib set_importance !! "ID" = Some (ann_id ann_importance)
  /\ ann_sent_id ann_importance = "1278414"
  /\ attrib set_importance !! "frameName" = Some (ann_frame_name ann_importance)
  /\ exists target sv ev,
       xpath_target_label set_importance = [target]
       /\ attrib target !! "start" = Some sv
       /\ py_int sv = Ok (t_start (ann_target ann_importance))
       /\ attrib target !! "end" = Some ev
       /\ py_int ev = Ok (t_end (ann_target ann_importance)).
Proof.
  apply (parsed_annotation_fields "1278414" "Some text ." set_importance [] []).
  vm_compute. reflexivity.
Defined.

Section Readable.

Lemma FE_body_readable label :
  readable_label label -> exists r, FE_body label = Ok r.
Proof.
  intros Hr. unfold FE_body. case_bool_decide as Hs; [|eauto].
  destruct (Hr Hs) as (sv & ev & s & e & n & Hsv & Hps & Hev & Hpe & Hn).
  unfold_Res. rewrite (getitem_Some _ _ _ Hsv), Hps, (getitem_Some _ _ _ Hev), Hpe,
    (getitem_Some _ _ _ Hn). eauto.
Qed.

Lemma FE_loop_readable labels FE :
  Forall readable_label labels -> exists fes, FE_loop labels FE = Ok fes.
Proof.
  intros Hall. revert FE. induction Hall as [|l labels Hl _ IH]; intros FE; [by exists FE|].
  rewrite FE_loop_cons. destruct (FE_body_readable l Hl) as [r ->]. apply IH.
Qed.

Lemma annotation_body_readable sent_id sent_str a err :
  readable_set a ->
  exists ann err', annotation_body sent_id sent_str a err = (err', Ok (Some ann)).
Proof.
  intros ([id Hid] & [fn Hfn] & (t & sv & ev & s & e & Ht & Hsv & Hs & Hev & He) & Hfe).
  destruct (FE_loop_readable _ [] Hfe) as [fes Hfes].
  unfold annotation_body. unfold_M.
  rewrite (getitem_Some _ _ _ Hid), Ht, (getitem_Some _ _ _ Hsv), Hs,
    (getitem_Some _ _ _ Hev), He, Hfes, (getitem_Some _ _ _ Hfn).
  case_bool_decide; unfold stderr_write; eauto.
Qed.

Lemma annotations_loop_readable sent_id sent_str sets annotations err :
  Forall (fun a =>
    readable_set a
    \/ (is_Some (attrib a !! "ID") /\ length (xpath_target_label a) ≠ 1%nat)) sets ->
  exists anns err',
    annotations_loop sent_id sent_str sets annotations err = (err', Ok anns).
Proof.
  intros Hall. revert annotations err.
  induction Hall as [|a sets Ha _ IH]; intros annotations err; [by exists annotations, err|].
  rewrite annotations_loop_cons. destruct Ha as [Ha|[[id Hid] Hlen]].
  - destruct (annotation_body_readable sent_id sent_str a err Ha) as (ann & err' & ->).
    apply IH.
  - rewrite (annotation_body_discard _ _ _ _ _ Hid Hlen). apply IH.
Qed.

Variable decode_utf8 : string -> Res string.

Lemma sentence_body_readable sent err :
  readable_sentence decode_utf8 sent ->
  exists r err', sentence_body decode_utf8 sent err = (err', Ok r).
Proof.
  intros ([sid Hsid] & (tn & rest & raw & sstr & Ht & Hraw & Hdec) & Hsets).
  destruct (annotations_loop_readable sid sstr _ [] err Hsets) as (anns & err' & Hloop).
  unfold sentence_body. unfold_M.
  rewrite (getitem_Some _ _ _ Hsid), Ht. simpl. rewrite Hraw, Hdec, Hloop. eauto.
Qed.

Lemma sentences_loop_readable sents result err :
  Forall (readable_sentence decode_utf8) sents ->
  exists res err', sentences_loop decode_utf8 sents result err = (err', Ok res).
Proof.
  intros Hall. revert result err.
  induction Hall as [|s sents Hs _ IH]; intros result err; [by exists result, err|].
  rewrite sentences_loop_cons.
  destruct (sentence_body_readable s err Hs) as (r & err' & ->). apply IH.
Qed.

(** X11.  A document all of whose sentences are readable is parsed without
    an exception: every sentence has an [ID] and a [text] child that
    decodes, and every manual annotation set either has the attributes the
    parser reads (with integer offsets) or is one it skips. *)
Theorem readable_document_parses
  (path : string) (tree : element) (err : list diagnostic) :
  Forall (readable_sentence decode_utf8) (xpath_sentence tree) ->
  exists result err',
    parse_fulltext decode_utf8 path tree err = (err', Ok result).
Proof.
  intros Hall.
  destruct (sentences_loop_readable _ [] err Hall) as (res & err' & Hloop).
  unfold parse_fulltext. unfold_M. rewrite Hloop.
  case_bool_decide; unfold stderr_write; eauto.
Qed.

(** X12.  A sentence the parse gets to must have an [ID], a [text] child
    and text in it, whether or not it has any annotation: without the [ID]
    the parse ends in [KeyError], without a [text] child in [IndexError],
    with an empty [text] element in [AttributeError]. *)
Theorem sentence_needs_id_and_text
  (path : string) (tree sent : element) (spre spost : list element)
  (err0 err1 : list diagnostic) (result : list (string * list Annotation)) :
  xpath_sentence tree = spre ++ sent :: spost ->
  sentences_loop decode_utf8 spre [] err0 = (err1, Ok result) ->
  (attrib sent !! "ID" = None ->
   parse_fulltext decode_utf8 path tree err0 = (err1, Err (KeyError "ID")))
  /\ (is_Some (attrib sent !! "ID") -> xpath_text sent = [] ->
      parse_fulltext decode_utf8 path tree err0 = (err1, Err IndexError))
  /\ (is_Some (attrib sent !! "ID") ->
      forall tnode rest, xpath_text sent = tnode :: rest -> text tnode = None ->
      parse_fulltext decode_utf8 path tree err0 = (err1, Err AttributeError)).
Proof.
  intros Hsents Hpre.
  assert (Hprop : forall e, sentence_body decode_utf8 sent err1 = (err1, Err e) ->
            parse_fulltext decode_utf8 path tree err0 = (err1, Err e)).
  { intros e He. unfold parse_fulltext. unfold_M.
    now rewrite Hsents, sentences_loop_app, Hpre, sentences_loop_cons, He. }
  repeat split.
  - intros Hid. apply Hprop. unfold sentence_body. unfold_M.
    now rewrite (getitem_None _ _ Hid).
  - intros [sid Hid] Ht. apply Hprop. unfold sentence_body. unfold_M.
    now rewrite (getitem_Some _ _ _ Hid), Ht.
  - intros [sid Hid] tnode rest Ht Hraw. apply Hprop. unfold sentence_body. unfold_M.
    rewrite (getitem_Some _ _ _ Hid), Ht. simpl. now rewrite Hraw.
Qed.

Lemma sentence_body_without_child sent spre c spost err :
  tag c ≠ "text" ->
  ¬ (tag c = "annotationSet" /\ attrib c !! "status" = Some "MANUAL") ->
  children sent = spre ++ c :: spost ->
  sentence_body decode_utf8 sent err
  = sentence_body decode_utf8 (with_children sent (spre ++ spost)) err.
Proof.
  intros Htag Hman Hch.
  assert (Htext : xpath_text (with_children sent (spre ++ spost)) = xpath_text sent).
  { unfold xpath_text. simpl. rewrite Hch, !filter_app.
    now rewrite (filter_cons_False _ c). }
  assert (Hsets : xpath_manual (with_children sent (spre ++ spost)) = xpath_manual sent).
  { unfold xpath_manual. simpl. rewrite Hch, !filter_app.
    now rewrite (filter_cons_False _ c). }
  unfold sentence_body. simpl attrib. now rewrite Htext, Hsets.
Qed.

Lemma parse_fulltext_sentence_ext path tree tpre sent sent' tpost err :
  children tree = tpre ++ sent :: tpost ->
  tag sent' = tag sent ->
  (forall err', sentence_body decode_utf8 sent err' = sentence_body decode_utf8 sent' err') ->
  parse_fulltext decode_utf8 path tree err
  = parse_fulltext decode_utf8 path (with_children tree (tpre ++ sent' :: tpost)) err.
Proof.
  intros Htree Htag Hbody.
  assert (Hloop :
    sentences_loop decode_utf8 (xpath_sentence tree) [] err
    = sentences_loop decode_utf8
        (xpath_sentence (with_children tree (tpre ++ sent' :: tpost))) [] err).
  { unfold xpath_sentence. simpl children. rewrite Htree, !filter_app.
    destruct (decide (tag sent = "sentence")) as [Hs|Hs].
    - rewrite !filter_cons_True by congruence. now apply sentences_loop_ext.
    - rewrite !filter_cons_False by congruence. reflexivity. }
  unfold parse_fulltext. unfold_M. now rewrite Hloop.
Qed.

(** X13.  Only the [text] children and the MANUAL annotation sets of a
    sentence are ever looked at: any other child, an annotation set of
    another status included, can be taken out of the sentence without
    changing the result, the diagnostics or the exception of the parse. *)
Theorem other_children_are_ignored
  (path : string) (tree sent c : element)
  (tpre tpost spre spost : list element) (err : list diagnostic) :
  tag c ≠ "text" ->
  ¬ (tag c = "annotationSet" /\ attrib c !! "status" = Some "MANUAL") ->
  children sent = spre ++ c :: spost ->
  children tree = tpre ++ sent :: tpost ->
  parse_fulltext decode_utf8 path tree err
  = parse_fulltext decode_utf8 path
      (with_children tree (tpre ++ with_children sent (spre ++ spost) :: tpost))
      err.
Proof.
  intros Htag Hman Hsent Htree.
  apply (parse_fulltext_sentence_ext path tree tpre sent _ tpost err); [done|reflexivity|].
  intros. now apply sentence_body_without_child with c.
Qed.

End Readable.

Lemma readable_document_parses_dni :
  exists result err', parse_fulltext Ok "dni.xml" corpus_dni [] = (err', Ok result).
Proof.
  apply (readable_document_parses Ok "dni.xml" corpus_dni []).
  change (xpath_sentence corpus_dni) with [sentence_dni].
  constructor; [|constructor]. split; [eexists; vm_compute; reflexivity|].
  split; [exists text_node, [], "Some text .", "Some text ."; repeat split|].
  change (xpath_manual sentence_dni) with [set_importance; set_no_target; set_rewards].
  constructor; [|constructor; [|constructor; [|constructor]]].
  - left. split; [eexists; vm_compute; reflexivity|].
    split; [eexists; vm_compute; reflexivity|]. split.
    + exists (label [("start", "60"); ("end", "63"); ("name", "Target")]),
        "60", "63", 60, 63. repeat split; vm_compute; reflexivity.
    + change (xpath_FE_label set_importance)
        with [label [("start", "65"); ("end", "70"); ("name", "Factor")];
              label [("name", "Interested_party"); ("end", "3")]].
      constructor; [|constructor; [|constructor]].
      * intros _. exists "65", "70", 65, 70, "Factor".
        repeat split; vm_compute; reflexivity.
      * intros [x Hx]. vm_compute in Hx. discriminate.
  - right. split; [eexists; vm_compute; reflexivity|vm_compute; lia].
  - left. split; [eexists; vm_compute; reflexivity|].
    split; [eexists; vm_compute; reflexivity|]. split.
    + exists (label [("start", "154"); ("end", "163"); ("name", "Target")]),
        "154", "163", 154, 163. repeat split; vm_compute; reflexivity.
    + change (xpath_FE_label set_rewards) with (@nil element). constructor.
Defined.

Lemma sentence_needs_id_and_text_no_id :
  (attrib sentence_no_id !! "ID" = None ->
   parse_fulltext Ok "no_id.xml" corpus_no_id []
   = ([NoFrameElement "Rewards_and_punishments" "Some text ."], Err (KeyError "ID")))
  /\ (is_Some (attrib sentence_no_id !! "ID") -> xpath_text sentence_no_id = [] ->
      parse_fulltext Ok "no_id.xml" corpus_no_id []
      = ([NoFrameElement "Rewards_and_punishments" "Some text ."], Err IndexError))
  /\ (is_Some (attrib sentence_no_id !! "ID") ->
      forall tnode rest, xpath_text sentence_no_id = tnode :: rest -> text tnode = None ->
      parse_fulltext Ok "no_id.xml" corpus_no_id []
      = ([NoFrameElement "Rewards_and_punishments" "Some text ."], Err AttributeError)).
Proof.
  apply (sentence_needs_id_and_text Ok "no_id.xml" corpus_no_id sentence_no_id
           [sentence_dni] [] []
           [NoFrameElement "Rewards_and_punishments" "Some text ."]
           [("Some text .", [ann_importance; ann_rewards])]).
  - reflexivity.
  - vm_compute. reflexivity.
Defined.

Example parse_corpus_no_id :
  parse_fulltext Ok "no_id.xml" corpus_no_id []
  = ([NoFrameElement "Rewards_and_punishments" "Some text ."], Err (KeyError "ID")).
Proof. vm_compute. reflexivity. Qed.

Lemma other_children_are_ignored_dni :
  parse_fulltext Ok "dni.xml" corpus_dni []
  = parse_fulltext Ok "dni.xml"
      (with_children corpus_dni
         ([header]
          ++ with_children sentence_dni
               ([text_node] ++ [set_importance; set_no_target; set_rewards])
          :: []))
      [].
Proof.
  apply (other_children_are_ignored Ok "dni.xml" corpus_dni sentence_dni
           set_unannotated [header] [] [text_node]
           [set_importance; set_no_target; set_rewards] []).
  - discriminate.
  - intros [_ H]. vm_compute in H. discriminate.
  - reflexivity.
  - reflexivity.
Defined.

(** ** Further results on the distributor *)

Section Run.

Variables (fs : file_system) (output_dir : string) (print_sent_path : bool).

Lemma distribute_exists_fails records w w0 e :
  path_exists fs output_dir w = (w0, Err e) ->
  distribute_annotations fs records output_dir print_sent_path w = (w0, Err e).
Proof. intros H. now rewrite distribute_unfold, H. Qed.

Lemma distribute_after_exists records w w0 there :
  path_exists fs output_dir w = (w0, Ok there) ->
  distribute_annotations fs records output_dir print_sent_path w
  = match for_each (perform fs)
            (run_actions output_dir print_sent_path records there) w0 with
    | (w', Ok _) => (w', outcome records)
    | (w', Err e) => (w', Err e)
    end.
Proof.
  intros H. rewrite distribute_unfold, H. unfold run_actions. destruct there.
  - cbn [app]. apply distribute_loop_actions.
  - cbn [app]. rewrite for_each_cons. cbn [perform].
    destruct (mkdir fs output_dir w0) as [w1 [[]|e]]; [|reflexivity].
    apply distribute_loop_actions.
Qed.

Lemma served_complete records :
  length (served records) = length records -> served records = records.
Proof.
  destruct (served_prefix records) as [rest Hrest]. intros Hlen.
  rewrite Hrest in Hlen at 2. rewrite length_app in Hlen.
  destruct rest; [|simpl in Hlen; lia]. now rewrite app_nil_r in Hrest.
Qed.

Lemma outcome_Ok records : outcome records = Ok () -> served records = records.
Proof.
  unfold outcome. case_bool_decide; [|discriminate]. intros _. now apply served_complete.
Qed.

Lemma elem_of_record_actions q c record :
  Write q c ∈ record_actions output_dir print_sent_path record ->
  exists a0 anns, record.2 = a0 :: anns
    /\ ((q, c) = (sentence_file output_dir a0, Text record.1)
        \/ exists ann, ann ∈ record.2
             /\ (q, c) = (annotation_file output_dir ann, Pickled ann)).
Proof.
  unfold record_actions. destruct record as [sent [|a0 anns]]; cbn [fst snd];
    [inversion 1|].
  intros Hin. exists a0, anns. split; [done|].
  apply elem_of_app in Hin as [Hin|Hin].
  { destruct print_sent_path; [|inversion Hin].
    apply list_elem_of_singleton in Hin. discriminate. }
  apply elem_of_cons in Hin as [[= -> ->]|Hin]; [now left|right].
  apply list_elem_of_fmap in Hin as (ann & [= -> ->] & Hann). eauto.
Qed.

Lemma elem_of_run_actions q c records there :
  Write q c ∈ run_actions output_dir print_sent_path records there ->
  exists record a0 anns, record ∈ records /\ record.2 = a0 :: anns
    /\ ((q, c) = (sentence_file output_dir a0, Text record.1)
        \/ exists ann, ann ∈ record.2
             /\ (q, c) = (annotation_file output_dir ann, Pickled ann)).
Proof.
  unfold run_actions. intros Hin. apply elem_of_app in Hin as [Hin|Hin].
  { destruct there; [inversion Hin|].
    apply list_elem_of_singleton in Hin. discriminate. }
  apply list_elem_of_bind in Hin as (record & Hin & Hrec).
  apply elem_of_record_actions in Hin as (a0 & anns & Heq & Hcase).
  exists record, a0, anns. split; [|done].
  destruct (served_prefix records) as [rest ->]. apply elem_of_app. now left.
Qed.

Lemma write_in_run_actions records record ann there :
  served records = records -> record ∈ records -> ann ∈ record.2 ->
  Write (annotation_file output_dir ann) (Pickled ann)
    ∈ run_actions output_dir print_sent_path records there.
Proof.
  intros Hs Hrec Hann. unfold run_actions. rewrite Hs.
  apply elem_of_app. right. apply list_elem_of_bind. exists record. split; [|done].
  unfold record_actions. destruct record as [sent [|a0 anns]]; cbn [fst snd] in *;
    [inversion Hann|].
  apply elem_of_app. right. right.
  now apply (list_elem_of_fmap_2
               (fun ann => Write (annotation_file output_dir ann) (Pickled ann))).
Qed.

Lemma sentence_in_run_actions records sent a0 anns there :
  served records = records -> (sent, a0 :: anns) ∈ records ->
  Write (sentence_file output_dir a0) (Text sent)
    ∈ run_actions output_dir print_sent_path records there.
Proof.
  intros Hs Hrec. unfold run_actions. rewrite Hs.
  apply elem_of_app. right. apply list_elem_of_bind.
  exists (sent, a0 :: anns). split; [|done].
  unfold record_actions. cbn [fst snd]. apply elem_of_app. right. now left.
Qed.

(** X14.  What [distribute_annotations] does on any file system, for any
    records.  It asks whether the output directory exists and makes it when
    it does not; then, for each record up to the first one without
    annotations, it prints the sentence path when asked to, writes the
    sentence text under the [sent_id] of the record's first annotation and
    writes every annotation of the record under its [id], in this order.
    The first of these calls that raises ends the run with its exception;
    when all have returned, the run ends in [IndexError] if some record has
    no annotation and returns normally otherwise. *)
Theorem distribute_effect
  (annotations : list (string * list Annotation)) (w : world fs) :
  distribute_annotations fs annotations output_dir print_sent_path w
  = match path_exists fs output_dir w with
    | (w0, Ok there) =>
        match for_each (perform fs)
                (run_actions output_dir print_sent_path annotations there) w0 with
        | (w', Ok _) => (w', outcome annotations)
        | (w', Err e) => (w', Err e)
        end
    | (w0, Err e) => (w0, Err e)
    end.
Proof.
  destruct (path_exists fs output_dir w) as [w0 [there|e]] eqn:He.
  - now apply distribute_after_exists.
  - now apply distribute_exists_fails.
Qed.

Section WithLaws.

Variables (read : string -> world fs -> option file_content)
          (same_file : string -> string -> Prop).
Hypothesis laws : file_system_laws fs read same_file.

Lemma read_after_perform_other a w q :
  (forall p c, a = Write p c -> ¬ same_file q p) ->
  read q (perform fs a w).1 = read q w.
Proof.
  destruct laws. destruct a as [p|s|p c]; intros Hq; cbn [perform]; eauto.
Qed.

Lemma read_frame_actions l w q :
  (forall p c, Write p c ∈ l -> ¬ same_file q p) ->
  read q (for_each (perform fs) l w).1 = read q w.
Proof.
  revert w. induction l as [|a l IH]; intros w Hq; [reflexivity|].
  rewrite for_each_cons.
  assert (Ha : read q (perform fs a w).1 = read q w).
  { apply read_after_perform_other. intros p c ->. apply (Hq p c). now left. }
  destruct (perform fs a w) as [w1 [[]|e]]; [|exact Ha].
  rewrite IH; [exact Ha|]. intros p c Hin. apply (Hq p c). now right.
Qed.

(** A path whose every write among the calls carries [c], or goes to
    another file, holds [c] once the calls have all returned. *)
Lemma read_after_actions l w p c :
  (for_each (perform fs) l w).2 = Ok () ->
  (forall q c', Write q c' ∈ l -> (q = p /\ c' = c) \/ ¬ same_file p q) ->
  Write p c ∈ l \/ read p w = Some c ->
  read p (for_each (perform fs) l w).1 = Some c.
Proof.
  revert w. induction l as [|a l IH]; intros w Hok Hall Hin.
  - destruct Hin as [Hin|Hin]; [inversion Hin|exact Hin].
  - rewrite for_each_cons in Hok |- *.
    destruct (perform fs a w) as [w1 [[]|e]] eqn:Ha; [|discriminate].
    apply IH; [exact Hok|intros q c' Hq; apply Hall; now right|].
    assert (Hw1 : w1 = (perform fs a w).1) by now rewrite Ha.
    assert (Hr1 : (perform fs a w).2 = Ok ()) by now rewrite Ha.
    destruct a as [p0|s|q c'].
    + destruct Hin as [Hin|Hin].
      * left. apply elem_of_cons in Hin as [Hin|Hin]; [discriminate|done].
      * right. rewrite Hw1. cbn [perform]. destruct laws. congruence.
    + destruct Hin as [Hin|Hin].
      * left. apply elem_of_cons in Hin as [Hin|Hin]; [discriminate|done].
      * right. rewrite Hw1. cbn [perform]. destruct laws. congruence.
    + destruct (Hall q c' ltac:(now left)) as [[-> ->]|Hne].
      * right. rewrite Hw1. cbn [perform] in *.
        now apply (read_after_write fs read same_file laws).
      * destruct Hin as [Hin|Hin].
        -- left. apply elem_of_cons in Hin as [[= <- <-]|Hin]; [|done].
           exfalso. apply Hne. apply (same_file_refl fs read same_file laws).
        -- right. rewrite Hw1. cbn [perform].
           rewrite (read_other_write fs read same_file laws); done.
Qed.

(** X15.  On a file system where a write changes only the file it names
    and the other calls change no file, [distribute_annotations] leaves
    every file as it was that is not the sentence file or an annotation
    file of one of its records, whether it returns or raises. *)
Theorem distribute_touches_only_named_files
  (annotations : list (string * list Annotation)) (w : world fs) (q : string) :
  Forall (fun p => ¬ same_file q p) (named_files output_dir annotations) ->
  read q (distribute_annotations fs annotations output_dir print_sent_path w).1
  = read q w.
Proof.
  intros Hq.
  assert (He : read q (path_exists fs output_dir w).1 = read q w)
    by apply (read_after_exists fs read same_file laws).
  destruct (path_exists fs output_dir w) as [w0 [there|e]] eqn:Hex.
  - rewrite (distribute_after_exists _ _ _ _ Hex). simpl in He. rewrite <- He.
    assert (Hrun : read q (for_each (perform fs)
                      (run_actions output_dir print_sent_path annotations there) w0).1
                   = read q w0).
    { apply read_frame_actions. intros p c Hin.
      apply elem_of_run_actions in Hin as (record & a0 & anns & Hrec & Heq & Hcase).
      rewrite Forall_forall in Hq. apply Hq. unfold named_files.
      apply list_elem_of_bind. exists record. split; [|done]. rewrite Heq.
      destruct Hcase as [[= -> _]|(ann & Hann & [= -> _])]; [now left|].
      right. rewrite <- Heq. now apply list_elem_of_fmap_2. }
    destruct (for_each (perform fs) _ w0) as [w' [[]|e]]; exact Hrun.
  - now rewrite (distribute_exists_fails _ _ _ _ Hex).
Qed.

(** X17.  On such a file system, when [distribute_annotations] returns
    normally, an annotation can be read back from the file named after its
    [id], provided no sentence file and no file of another annotation of
    the records is that same file. *)
Theorem distributed_annotation_is_stored
  (annotations : list (string * list Annotation)) (w : world fs)
  (record : string * list Annotation) (ann : Annotation) :
  (distribute_annotations fs annotations output_dir print_sent_path w).2 = Ok () ->
  record ∈ annotations ->
  ann ∈ record.2 ->
  (forall sent a0 anns, (sent, a0 :: anns) ∈ annotations ->
     ¬ same_file (annotation_file output_dir ann) (sentence_file output_dir a0)) ->
  (forall record' ann', record' ∈ annotations -> ann' ∈ record'.2 ->
     ann' = ann
     \/ ¬ same_file (annotation_file output_dir ann) (annotation_file output_dir ann')) ->
  read (annotation_file output_dir ann)
    (distribute_annotations fs annotations output_dir print_sent_path w).1
  = Some (Pickled ann).
Proof.
  intros Hok Hrec Hann Hsent Hother.
  destruct (path_exists fs output_dir w) as [w0 [there|e]] eqn:Hex.
  2:{ rewrite (distribute_exists_fails _ _ _ _ Hex) in Hok. discriminate. }
  rewrite (distribute_after_exists _ _ _ _ Hex) in Hok |- *.
  assert (Hrun : (for_each (perform fs)
                    (run_actions output_dir print_sent_path annotations there) w0).2
                 = Ok () /\ outcome annotations = Ok ()).
  { destruct (for_each (perform fs) _ w0) as [w' [[]|e]]; [done|discriminate]. }
  destruct Hrun as [Hrun Hout]. apply outcome_Ok in Hout.
  assert (Hread : read (annotation_file output_dir ann)
            (for_each (perform fs)
               (run_actions output_dir print_sent_path annotations there) w0).1
            = Some (Pickled ann)).
  { apply read_after_actions; [exact Hrun| |left; now apply write_in_run_actions with record].
    intros q c' Hin.
    apply elem_of_run_actions in Hin as (record' & a0 & anns & Hrec' & Heq & Hcase).
    destruct Hcase as [[= -> ->]|(ann' & Hann' & [= -> ->])].
    - right. destruct record' as [sent' l]. cbn [snd] in Heq. subst l. eauto.
    - destruct (Hother record' ann' Hrec' Hann') as [->|Hne]; [now left|now right]. }
  destruct (for_each (perform fs) _ w0) as [w' [[]|e]]; exact Hread.
Qed.

(** X18.  On such a file system, when [distribute_annotations] returns
    normally, the file named after the [sent_id] of a record's first
    annotation holds that record's text, provided every other record
    filed under that same path holds the same text and no other sentence
    file or annotation file of the records is that same file. *)
Theorem distributed_sentence_is_stored
  (annotations : list (string * list Annotation)) (w : world fs)
  (sent : string) (a0 : Annotation) (anns : list Annotation) :
  (distribute_annotations fs annotations output_dir print_sent_path w).2 = Ok () ->
  (sent, a0 :: anns) ∈ annotations ->
  (forall sent' a0' anns', (sent', a0' :: anns') ∈ annotations ->
     (sentence_file output_dir a0' = sentence_file output_dir a0 /\ sent' = sent)
     \/ ¬ same_file (sentence_file output_dir a0) (sentence_file output_dir a0')) ->
  (forall record' ann', record' ∈ annotations -> ann' ∈ record'.2 ->
     ¬ same_file (sentence_file output_dir a0) (annotation_file output_dir ann')) ->
  read (sentence_file output_dir a0)
    (distribute_annotations fs annotations output_dir print_sent_path w).1
  = Some (Text sent).
Proof.
  intros Hok Hrec Hsent Hother.
  destruct (path_exists fs output_dir w) as [w0 [there|e]] eqn:Hex.
  2:{ rewrite (distribute_exists_fails _ _ _ _ Hex) in Hok. discriminate. }
  rewrite (distribute_after_exists _ _ _ _ Hex) in Hok |- *.
  assert (Hrun : (for_each (perform fs)
                    (run_actions output_dir print_sent_path annotations there) w0).2
                 = Ok () /\ outcome annotations = Ok ()).
  { destruct (for_each (perform fs) _ w0) as [w' [[]|e]]; [done|discriminate]. }
  destruct Hrun as [Hrun Hout]. apply outcome_Ok in Hout.
  assert (Hread : read (sentence_file output_dir a0)
            (for_each (perform fs)
               (run_actions output_dir print_sent_path annotations there) w0).1
            = Some (Text sent)).
  { apply read_after_actions;
      [exact Hrun| |left; now apply sentence_in_run_actions with anns].
    intros q c' Hin.
    apply elem_of_run_actions in Hin as (record' & a0' & anns' & Hrec' & Heq & Hcase).
    destruct Hcase as [[= -> ->]|(ann' & Hann' & [= -> ->])].
    - destruct record' as [sent' l]. cbn [snd fst] in *. subst l.
      destruct (Hsent sent' a0' anns' Hrec') as [[-> ->]|Hne]; [now left|now right].
    - right. eauto. }
  destruct (for_each (perform fs) _ w0) as [w' [[]|e]]; exact Hread.
Qed.

End WithLaws.

End Run.

(** ** The distributor on the file system in memory *)

Section Writes.

Implicit Types (ws : list (string * file_content)) (m : gmap string file_content).

Lemma apply_writes_cons p c ws m :
  apply_writes ((p, c) :: ws) m = apply_writes ws (<[ p := c ]> m).
Proof. reflexivity. Qed.

(** The writes seen as one map laid over the files that were there. *)
Lemma apply_writes_union ws m : apply_writes ws m = list_to_map (reverse ws) ∪ m.
Proof.
  revert m. induction ws as [|[p c] ws IH]; intros m.
  - simpl. now rewrite (left_id_L ∅ (∪)).
  - rewrite apply_writes_cons, IH, reverse_cons, list_to_map_app.
    rewrite <- (assoc_L (∪)). f_equal. simpl.
    now rewrite insert_union_singleton_l, insert_empty.
Qed.

Lemma apply_writes_idemp ws m : apply_writes ws (apply_writes ws m) = apply_writes ws m.
Proof.
  rewrite !apply_writes_union, (assoc_L (∪)). f_equal. apply (idemp_L (∪)).
Qed.

Lemma apply_writes_keeps ws m p :
  is_Some (m !! p) -> is_Some (apply_writes ws m !! p).
Proof.
  revert m. induction ws as [|[p0 c0] ws IH]; intros m Hp; [done|].
  rewrite apply_writes_cons. apply IH.
  destruct (decide (p0 = p)) as [->|Hne].
  - rewrite lookup_insert_eq. eauto.
  - now rewrite lookup_insert_ne.
Qed.

End Writes.

Section MemoryRun.

Variables (output_dir : string) (print_sent_path : bool).

Lemma memory_laws : file_system_laws memory_fs (fun p w => files w !! p) eq.
Proof.
  split; try reflexivity.
  - intros p c w _. cbn. apply lookup_insert_eq.
  - intros p q c w Hne. cbn. apply lookup_insert_ne. congruence.
Qed.

Lemma memory_run_files l (w : memory) :
  files (for_each (perform memory_fs) l w).1 = apply_writes (writes_of l) (files w).
Proof.
  revert w. induction l as [|a l IH]; intros w; [reflexivity|].
  rewrite for_each_cons. destruct a as [p|s|p c]; cbn [perform memory_fs mkdir
    print_line write_file memory_mkdir memory_print memory_write];
    rewrite IH; reflexivity.
Qed.

Lemma memory_run_dirs l (w : memory) :
  Forall (fun a => forall p, a ≠ Mkdir p) l ->
  dirs (for_each (perform memory_fs) l w).1 = dirs w.
Proof.
  intros Hl. revert w. induction Hl as [|a l Ha _ IH]; intros w; [reflexivity|].
  rewrite for_each_cons. destruct a as [p|s|p c]; [now destruct (Ha p)| |];
    cbn [perform memory_fs print_line write_file memory_print memory_write];
    rewrite IH; reflexivity.
Qed.

Lemma records_make_no_directory (records : list (string * list Annotation)) :
  Forall (fun a => forall p, a ≠ Mkdir p)
    (records ≫= record_actions output_dir print_sent_path).
Proof.
  apply Forall_forall. intros a Hin p ->.
  apply list_elem_of_bind in Hin as ([sent [|a0 anns]] & Hin & _);
    unfold record_actions in Hin; cbn [fst snd] in Hin; [inversion Hin|].
  apply elem_of_app in Hin as [Hin|Hin].
  { destruct print_sent_path; [|inversion Hin].
    apply list_elem_of_singleton in Hin. discriminate. }
  apply elem_of_cons in Hin as [Hin|Hin]; [discriminate|].
  apply list_elem_of_fmap in Hin as (ann & Heq & _). discriminate.
Qed.

Lemma memory_distribute (records : list (string * list Annotation)) (w : memory) :
  let there := bool_decide (output_dir ∈ dirs w)
               || bool_decide (is_Some (files w !! output_dir)) in
  let r := distribute_annotations memory_fs records output_dir print_sent_path w in
  dirs r.1 = (if there then dirs w else {[ output_dir ]} ∪ dirs w)
  /\ files r.1
     = apply_writes
         (writes_of (served records ≫= record_actions output_dir print_sent_path))
         (files w).
Proof.
  intros there r. subst r.
  rewrite (distribute_after_exists memory_fs output_dir print_sent_path
             records w w there eq_refl).
  unfold run_actions.
  pose proof (memory_perform
    ((if there then [] else [Mkdir output_dir])
     ++ (served records ≫= record_actions output_dir print_sent_path)) w) as Hok.
  pose proof (memory_run_files
    ((if there then [] else [Mkdir output_dir])
     ++ (served records ≫= record_actions output_dir print_sent_path)) w) as Hf.
  assert (Hd : dirs (for_each (perform memory_fs)
    ((if there then [] else [Mkdir output_dir])
     ++ (served records ≫= record_actions output_dir print_sent_path)) w).1
    = if there then dirs w else {[ output_dir ]} ∪ dirs w).
  { destruct there; cbn [app].
    - apply memory_run_dirs, records_make_no_directory.
    - rewrite for_each_cons. cbn [perform memory_fs mkdir memory_mkdir].
      rewrite memory_run_dirs by apply records_make_no_directory. reflexivity. }
  assert (Hw : writes_of ((if there then [] else [Mkdir output_dir])
     ++ (served records ≫= record_actions output_dir print_sent_path))
     = writes_of (served records ≫= record_actions output_dir print_sent_path)).
  { now destruct there. }
  rewrite Hw in Hf.
  destruct (for_each (perform memory_fs) _ w) as [w' [[]|e]]; [done|discriminate].
Qed.

(** X16.  On the file system in memory, running [distribute_annotations]
    again on what it left leaves the same directories and the same files,
    and ends the same way. *)
Theorem distribute_twice
  (annotations : list (string * list Annotation)) (w : memory) :
  let r1 := distribute_annotations memory_fs annotations output_dir print_sent_path w in
  let r2 := distribute_annotations memory_fs annotations output_dir print_sent_path r1.1 in
  dirs r2.1 = dirs r1.1 /\ files r2.1 = files r1.1 /\ r2.2 = r1.2.
Proof.
  intros r1 r2. subst r1 r2.
  destruct (memory_distribute annotations w) as [Hd1 Hf1].
  destruct (memory_distribute annotations
    (distribute_annotations memory_fs annotations output_dir print_sent_path w).1)
    as [Hd2 Hf2].
  rewrite !memory_distribute_outcome.
  split; [|split; [|reflexivity]].
  - rewrite Hd2, Hf1, Hd1.
    destruct (bool_decide (output_dir ∈ dirs w)
              || bool_decide (is_Some (files w !! output_dir))) eqn:He.
    + apply orb_true_iff in He as [He|He].
      * now rewrite He.
      * apply bool_decide_eq_true in He.
        rewrite (bool_decide_eq_true_2 (is_Some (apply_writes _ _ !! _)))
          by now apply apply_writes_keeps.
        now rewrite orb_true_r.
    + rewrite (bool_decide_eq_true_2 (output_dir ∈ _)); [reflexivity|].
      apply elem_of_union_l, elem_of_singleton. reflexivity.
  - rewrite Hf2, Hf1. apply apply_writes_idemp.
Qed.

End MemoryRun.

Section Loading.

Variables (fs : file_system) (output_dir : string) (print_sent_path : bool).
Variable decode_utf8 : string -> Res string.

(** X19.  What [parse_fulltext] returns never makes
    [distribute_annotations] raise [IndexError]: every record has an
    annotation, so the run makes the calls of all the records and ends as
    the last of them does, whatever the file system; it returns normally
    when no call on the file system raises. *)
Theorem parsed_records_are_distributed
  (path : string) (tree : element) (err err' : list diagnostic)
  (result : list (string * list Annotation)) (w : world fs) :
  parse_fulltext decode_utf8 path tree err = (err', Ok result) ->
  distribute_annotations fs result output_dir print_sent_path w
  = match path_exists fs output_dir w with
    | (w0, Ok there) =>
        for_each (perform fs)
          ((if there then [] else [Mkdir output_dir])
           ++ (result ≫= record_actions output_dir print_sent_path)) w0
    | (w0, Err e) => (w0, Err e)
    end
  /\ (reliable fs ->
      (distribute_annotations fs result output_dir print_sent_path w).2 = Ok ()).
Proof.
  unfold parse_fulltext. unfold_M.
  destruct (sentences_loop decode_utf8 (xpath_sentence tree) [] err)
    as [err1 [res|e]] eqn:Hloop; [|discriminate].
  apply sentences_loop_Ok in Hloop as (new & -> & Hall & _). simpl.
  intros H.
  assert (result = new) as ->.
  { revert H. case_bool_decide; unfold stderr_write; now intros [= _ <-]. }
  clear H.
  assert (Hne : Forall (fun record : string * list Annotation => record.2 ≠ []) new).
  { eapply Forall_impl; [exact Hall|].
    intros record (sent & _ & (? & ? & ? & ? & _ & _ & _ & _ & Hne & _)). exact Hne. }
  split; [|intros Hrel; now apply distribute_reliable].
  destruct (path_exists fs output_dir w) as [w0 [there|e]] eqn:Hex.
  - rewrite (distribute_after_exists _ _ _ _ _ _ _ Hex).
    unfold run_actions, outcome. rewrite (served_all new Hne).
    rewrite bool_decide_eq_true_2 by done.
    now destruct (for_each (perform fs) _ w0) as [w' [[]|e]].
  - now apply distribute_exists_fails.
Qed.

End Loading.

Lemma distribute_touches_only_named_files_notes :
  Forall (fun p => "out/notes.txt" ≠ p) (named_files "out" records_dni)
  /\ files (distribute_annotations memory_fs records_dni "out" true
              memory_with_notes).1 !! "out/notes.txt"
     = files memory_with_notes !! "out/notes.txt".
Proof.
  assert (H : Forall (fun p => "out/notes.txt" ≠ p) (named_files "out" records_dni)).
  { apply (bool_decide_unpack _). vm_compute. exact I. }
  split; [exact H|].
  exact (distribute_touches_only_named_files memory_fs "out" true
           (fun p w => files w !! p) eq memory_laws records_dni
           memory_with_notes "out/notes.txt" H).
Defined.

Lemma distributed_annotation_is_stored_dni :
  (distribute_annotations memory_fs records_dni "out" false empty_memory).2 = Ok ()
  /\ files (distribute_annotations memory_fs records_dni "out" false empty_memory).1
       !! annotation_file "out" ann_rewards
     = Some (Pickled ann_rewards).
Proof.
  split; [reflexivity|].
  apply (distributed_annotation_is_stored memory_fs "out" false
           (fun p w => files w !! p) eq memory_laws records_dni empty_memory
           ("Some text .", [ann_importance; ann_rewards]) ann_rewards).
  - reflexivity.
  - apply list_elem_of_here.
  - apply list_elem_of_further, list_elem_of_here.
  - intros sent a0 anns Hin. apply list_elem_of_singleton in Hin.
    injection Hin as _ -> _. apply (bool_decide_unpack _). vm_compute. exact I.
  - intros record' ann' Hin Hann. apply list_elem_of_singleton in Hin. subst record'.
    cbn [snd] in Hann.
    apply elem_of_cons in Hann as [->|Hann].
    + right. apply (bool_decide_unpack _). vm_compute. exact I.
    + apply list_elem_of_singleton in Hann. now left.
Defined.

Lemma distributed_sentence_is_stored_dni :
  (distribute_annotations memory_fs records_dni "out" false empty_memory).2 = Ok ()
  /\ files (distribute_annotations memory_fs records_dni "out" false empty_memory).1
       !! sentence_file "out" ann_importance
     = Some (Text "Some text .").
Proof.
  split; [reflexivity|].
  apply (distributed_sentence_is_stored memory_fs "out" false
           (fun p w => files w !! p) eq memory_laws records_dni empty_memory
           "Some text ." ann_importance [ann_rewards]).
  - reflexivity.
  - apply list_elem_of_here.
  - intros sent' a0' anns' Hin. apply list_elem_of_singleton in Hin.
    injection Hin as -> -> _. now left.
  - intros record' ann' Hin Hann. apply list_elem_of_singleton in Hin. subst record'.
    cbn [snd] in Hann.
    apply elem_of_cons in Hann as [->|Hann].
    + apply (bool_decide_unpack _). vm_compute. exact I.
    + apply list_elem_of_singleton in Hann. subst ann'.
      apply (bool_decide_unpack _). vm_compute. exact I.
Defined.

Lemma parsed_records_are_distributed_dni :
  parse_fulltext Ok "dni.xml" corpus_dni []
  = ([NoFrameElement "Rewards_and_punishments" "Some text ."], Ok records_dni)
  /\ distribute_annotations memory_fs records_dni "out" true empty_memory
     = for_each (perform memory_fs)
         ([Mkdir "out"] ++ (records_dni ≫= record_actions "out" true)) empty_memory
  /\ (reliable memory_fs ->
      (distribute_annotations memory_fs records_dni "out" true empty_memory).2 = Ok ()).
Proof.
  assert (H : parse_fulltext Ok "dni.xml" corpus_dni []
    = ([NoFrameElement "Rewards_and_punishments" "Some text ."], Ok records_dni)).
  { vm_compute. reflexivity. }
  split; [exact H|].
  exact (parsed_records_are_distributed memory_fs "out" true Ok "dni.xml" corpus_dni []
           [NoFrameElement "Rewards_and_punishments" "Some text ."]
           records_dni empty_memory H).
Defined.
